(** * retrievio: message routing and flow tracking

    A shallow embedding of the messaging substrate of retrievio:
    - [src/agents/communication.py]  (module [Communication]),
    - [src/flow/coordinator.py]      (module [Coordinator]),
    - [src/messaging/queue.py]       (module [Queue]),
    - [src/messaging/broker.py]      (module [Broker]),
    - [src/agents/base_agent.py]     (module [BaseAgent], messaging methods),
    - [src/agents/text_chunker.py]   (module [TextChunker], chunking loop).

    Python dictionaries are finite maps ([gmap]), [asyncio.Queue] and
    [queue.Queue] objects are the list of their pending items (head = oldest),
    [str] is [string], and a finite [float] timeout is a rational number. *)

From Stdlib Require Import QArith Ascii.
From stdpp Require Import gmap strings list fin_maps.

Local Open Scope string_scope.
Local Open Scope list_scope.

(** ** Dataclass declarations

    A [@dataclass] is described by its fields in declaration order: the name,
    the annotation and the default value when there is one. *)

Record field := Field {
  field_name : string;
  field_annotation : string;
  field_default : option string
}.

Definition field_names (fs : list field) : list string := field_name <$> fs.

(** A field without a default must be given to the constructor. *)
Definition required (f : field) : bool :=
  match field_default f with None => true | Some _ => false end.

(** ** src/agents/communication.py *)

Module Communication.

(** [content : Any] is an opaque payload, taken as a string; a [metadata]
    dictionary maps strings to strings. *)
Record Message := {
  sender : string;
  receiver : string;
  content : string;
  message_type : string;
  metadata : option (gmap string string)
}.

Definition Message_fields : list field :=
  [ Field "sender" "str" None;
    Field "receiver" "str" None;
    Field "content" "Any" None;
    Field "message_type" "str" (Some "data");
    Field "metadata" "Optional[Dict]" (Some "None") ].

(** [self.message_queues : Dict[str, Queue]] *)
Record AgentCommunication := {
  message_queues : gmap string (list Message)
}.

Definition __init__ : AgentCommunication := {| message_queues := ∅ |}.

Definition register_agent (c : AgentCommunication) (agent_name : string)
  : AgentCommunication :=
  match message_queues c !! agent_name with
  | Some _ => c
  | None => {| message_queues := <[agent_name := []]> (message_queues c) |}
  end.

Definition send_message (c : AgentCommunication) (message : Message)
  : AgentCommunication * bool :=
  match message_queues c !! receiver message with
  | None => (c, false)
  | Some pending =>
      ({| message_queues :=
            <[receiver message := pending ++ [message]]> (message_queues c) |},
       true)
  end.

Definition get_messages (c : AgentCommunication) (agent_name : string)
  : AgentCommunication * list Message :=
  match message_queues c !! agent_name with
  | None => (c, [])
  | Some pending =>
      ({| message_queues := <[agent_name := []]> (message_queues c) |}, pending)
  end.

End Communication.

(** ** src/flow/coordinator.py *)

Module Coordinator.

(** The dictionary stored per flow by [start_flow]; its four keys are
    fixed, so it is a record. *)
Record Flow := {
  status : string;
  document : string;
  steps_completed : list string;
  current_step : string
}.

Record FlowCoordinator := {
  comm : Communication.AgentCommunication;
  active_flows : gmap string Flow
}.

Definition __init__ : FlowCoordinator :=
  {| comm := Communication.__init__; active_flows := ∅ |}.

Definition start_flow (fc : FlowCoordinator) (flow_id document_path : string)
  : FlowCoordinator :=
  {| comm := comm fc;
     active_flows :=
       <[flow_id := {| status := "started";
                       document := document_path;
                       steps_completed := [];
                       current_step := "parsing" |}]> (active_flows fc) |}.

Definition update_flow (fc : FlowCoordinator) (flow_id status' step : string)
  : FlowCoordinator :=
  match active_flows fc !! flow_id with
  | Some fl =>
      {| comm := comm fc;
         active_flows :=
           <[flow_id := {| status := status';
                           document := document fl;
                           steps_completed := steps_completed fl ++ [step];
                           current_step := current_step fl |}]>
             (active_flows fc) |}
  | None => fc
  end.

(** [self.active_flows.get(flow_id, {})]: [None] stands for the empty
    dictionary returned for an unknown id. *)
Definition get_flow_status (fc : FlowCoordinator) (flow_id : string)
  : option Flow :=
  active_flows fc !! flow_id.

(** The three operations of the coordinator, as calls on a shared
    instance. *)
Inductive call :=
| StartFlow (flow_id document_path : string)
| UpdateFlow (flow_id status' step : string)
| GetFlowStatus (flow_id : string).

Definition step (fc : FlowCoordinator) (c : call) : FlowCoordinator :=
  match c with
  | StartFlow flow_id document_path => start_flow fc flow_id document_path
  | UpdateFlow flow_id status' st => update_flow fc flow_id status' st
  | GetFlowStatus _ => fc
  end.

Definition run (fc : FlowCoordinator) (cs : list call) : FlowCoordinator :=
  foldl step fc cs.

(** [restarts flow_id c]: the call is a [start_flow] on [flow_id]. *)
Definition restarts (flow_id : string) (c : call) : bool :=
  match c with
  | StartFlow flow_id' _ => bool_decide (flow_id' = flow_id)
  | _ => false
  end.

(** The steps recorded for a flow; [None] when the id is unknown. *)
Definition steps_of (fc : FlowCoordinator) (flow_id : string)
  : option (list string) :=
  steps_completed <$> active_flows fc !! flow_id.

End Coordinator.

(** ** src/messaging/queue.py *)

Module Queue.

Record AsyncMessage := {
  id : string;
  sender : string;
  receiver : string;
  content : string;
  message_type : string;
  metadata : option (gmap string string)
}.

Definition AsyncMessage_fields : list field :=
  [ Field "id" "str" None;
    Field "sender" "str" None;
    Field "receiver" "str" None;
    Field "content" "Any" None;
    Field "message_type" "str" (Some "data");
    Field "metadata" "Optional[Dict]" (Some "None") ].

(** [self.queues] maps an agent id to the pending items of its
    [asyncio.Queue] (oldest first); [self.subscribers] maps a publisher to
    the list object holding its subscribers.  Each method is a function of
    the state at the call: the event loop runs one coroutine at a time, and
    what other tasks do while a caller is suspended is the [arrival]
    argument of the methods that can suspend. *)
Record AsyncMessageQueue := {
  queues : gmap string (list AsyncMessage);
  subscribers : gmap string (list string);
  _running : bool
}.

Definition __init__ : AsyncMessageQueue :=
  {| queues := ∅; subscribers := ∅; _running := true |}.

(** [d[k]] on a [defaultdict]: a missing key is first bound to the value of
    the factory; [k in d] and [d.get(k, ...)] do not bind anything. *)
Definition defaultdict_getitem {V : Type} (factory : V) (k : string)
  (d : gmap string V) : gmap string V * V :=
  match d !! k with
  | Some v => (d, v)
  | None => (<[k := factory]> d, factory)
  end.

(** Truth value of a [str]: false exactly for the empty string. *)
Definition str_truthy (s : string) : bool :=
  match s with
  | EmptyString => false
  | String _ _ => true
  end.

(** Truth value of an [Optional[float]]: [None] and zero are false. *)
Definition timeout_truthy (timeout : option Q) : bool :=
  match timeout with
  | None => false
  | Some t => negb (Qeq_bool t 0)
  end.

Definition register_agent (q : AsyncMessageQueue) (agent_id : string)
  : AsyncMessageQueue :=
  match queues q !! agent_id with
  | Some _ => q
  | None =>
      {| queues := <[agent_id := []]> (queues q);
         subscribers := subscribers q;
         _running := _running q |}
  end.

Definition subscribe (q : AsyncMessageQueue) (subscriber publisher : string)
  : AsyncMessageQueue :=
  let '(subs, current) := defaultdict_getitem [] publisher (subscribers q) in
  if bool_decide (subscriber ∈ current) then
    {| queues := queues q; subscribers := subs; _running := _running q |}
  else
    {| queues := queues q;
       subscribers := <[publisher := current ++ [subscriber]]> subs;
       _running := _running q |}.

(** [self.subscribers.get(publisher, [])] *)
Definition subscribers_get (q : AsyncMessageQueue) (publisher : string)
  : list string :=
  default [] (subscribers q !! publisher).

(** The list iterated by the delivery loop of [publish]: the subscribers of
    the sender followed, when it is non-empty, by the explicit receiver. *)
Definition publish_receivers (q : AsyncMessageQueue) (message : AsyncMessage)
  : list string :=
  let receivers := subscribers_get q (sender message) in
  if str_truthy (receiver message) then receivers ++ [receiver message]
  else receivers.

(** The subscription table after [receivers.append(message.receiver)]:
    [self.subscribers.get(sender, [])] returns the stored list object when
    the sender has one, so the append is seen through the table; the fresh
    [[]] returned otherwise is not stored. *)
Definition publish_subscribers (q : AsyncMessageQueue) (message : AsyncMessage)
  : gmap string (list string) :=
  match subscribers q !! sender message with
  | Some _ =>
      if str_truthy (receiver message) then
        <[sender message := publish_receivers q message]> (subscribers q)
      else subscribers q
  | None => subscribers q
  end.

(** The receivers for which a [put] task is created
    ([if receiver in self.queues]). *)
Definition publish_tasks (q : AsyncMessageQueue) (message : AsyncMessage)
  : list string :=
  filter (λ r, is_Some (queues q !! r)) (publish_receivers q message).

(** [self.queues[receiver].put(message)] on an unbounded queue. *)
Definition put (message : AsyncMessage) (qs : gmap string (list AsyncMessage))
  (receiver : string) : gmap string (list AsyncMessage) :=
  alter (λ pending, pending ++ [message]) receiver qs.

(** [publish]: the tasks run in creation order once [gather] is awaited.
    For a message whose fields are strings no statement of the [try] body
    raises, so the [except] branch returning [False] is not taken. *)
Definition publish (q : AsyncMessageQueue) (message : AsyncMessage)
  : AsyncMessageQueue * bool :=
  let tasks := publish_tasks q message in
  ({| queues := foldl (put message) (queues q) tasks;
      subscribers := publish_subscribers q message;
      _running := _running q |},
   true).

(** The result of awaiting: a value, or a caller that stays suspended. *)
Inductive outcome (A : Type) :=
| Returns (a : A)
| Blocks.
Arguments Returns {A} a.
Arguments Blocks {A}.

(** What the other tasks do to the agent's queue while a caller is
    suspended on it: [Some (d, m)] when the first [put] happens [d] seconds
    after the call and carries [m], [None] when nothing is ever put. *)
Definition arrival : Type := option (Q * AsyncMessage).

(** [await queue.get()]: a pending item is popped at once; on an empty queue
    the caller is suspended until an item is put, which it then receives. *)
Definition queue_get (env : arrival) (pending : list AsyncMessage)
  : outcome (AsyncMessage * list AsyncMessage) :=
  match pending with
  | m :: rest => Returns (m, rest)
  | [] =>
      match env with
      | Some (_, m) => Returns (m, [])
      | None => Blocks
      end
  end.

(** [await asyncio.wait_for(queue.get(), timeout)]; [None] is
    [asyncio.TimeoutError].  With [timeout <= 0] the [get] is cancelled
    before it runs. *)
Definition wait_for_get (env : arrival) (pending : list AsyncMessage) (t : Q)
  : option (AsyncMessage * list AsyncMessage) :=
  if Qle_bool t 0 then None
  else
    match pending with
    | m :: rest => Some (m, rest)
    | [] =>
        match env with
        | Some (d, m) => if Qle_bool t d then None else Some (m, [])
        | None => None
        end
    end.

Definition set_queue (q : AsyncMessageQueue) (agent_id : string)
  (pending : list AsyncMessage) : AsyncMessageQueue :=
  {| queues := <[agent_id := pending]> (queues q);
     subscribers := subscribers q;
     _running := _running q |}.

Definition get_message (env : arrival) (q : AsyncMessageQueue)
  (agent_id : string) (timeout : option Q)
  : AsyncMessageQueue * outcome (option AsyncMessage) :=
  match queues q !! agent_id with
  | None => (q, Returns None)
  | Some pending =>
      if timeout_truthy timeout then
        match wait_for_get env pending (default 0%Q timeout) with
        | Some (message, rest) =>
            (set_queue q agent_id rest, Returns (Some message))
        | None => (q, Returns None)
        end
      else
        match queue_get env pending with
        | Returns (message, rest) =>
            (set_queue q agent_id rest, Returns (Some message))
        | Blocks => (q, Blocks)
        end
  end.

(** The [while] loop of [get_all_messages]; [fuel] bounds the number of
    tests of its condition and [None] means that the bound was reached.
    An [AsyncMessage] instance is always true, so [if message:] only filters
    out [None]. *)
Fixpoint get_all_messages_loop (fuel : nat) (env : arrival)
  (q : AsyncMessageQueue) (agent_id : string) (messages : list AsyncMessage)
  : option (AsyncMessageQueue * outcome (list AsyncMessage)) :=
  match fuel with
  | O => None
  | S fuel' =>
      let '(qs, pending) := defaultdict_getitem [] agent_id (queues q) in
      let q1 := {| queues := qs; subscribers := subscribers q;
                   _running := _running q |} in
      match pending with
      | [] => Some (q1, Returns messages)
      | _ :: _ =>
          match get_message env q1 agent_id None with
          | (q2, Returns (Some message)) =>
              get_all_messages_loop fuel' env q2 agent_id (messages ++ [message])
          | (q2, Returns None) =>
              get_all_messages_loop fuel' env q2 agent_id messages
          | (q2, Blocks) => Some (q2, Blocks)
          end
      end
  end.

Definition get_all_messages (fuel : nat) (env : arrival)
  (q : AsyncMessageQueue) (agent_id : string)
  : option (AsyncMessageQueue * outcome (list AsyncMessage)) :=
  get_all_messages_loop fuel env q agent_id [].

Definition stop (q : AsyncMessageQueue) : AsyncMessageQueue :=
  {| queues := queues q; subscribers := subscribers q; _running := false |}.

(** [later q q']: [q'] is reached from [q] by calls of the methods of the
    queue. *)
Inductive later (q : AsyncMessageQueue) : AsyncMessageQueue → Prop :=
| later_now : later q q
| later_register_agent q' agent_id :
    later q q' → later q (register_agent q' agent_id)
| later_subscribe q' subscriber publisher :
    later q q' → later q (subscribe q' subscriber publisher)
| later_publish q' message :
    later q q' → later q (publish q' message).1
| later_get_message q' env agent_id timeout :
    later q q' → later q (get_message env q' agent_id timeout).1
| later_get_all_messages q' fuel env agent_id q'' res :
    later q q' →
    get_all_messages fuel env q' agent_id = Some (q'', res) →
    later q q''
| later_stop q' :
    later q q' → later q (stop q').

(** Number of occurrences of [r] in a list of receivers. *)
Definition occurrences (r : string) (l : list string) : nat :=
  length (filter (λ x, x = r) l).

(** The source has no bridge between the two message classes.  These two
    functions state what one would do: dropping the [id] turns an
    [AsyncMessage] into a [Message]; the other direction needs an id from the
    caller, since [id] has no default. *)
Definition to_Message (m : AsyncMessage) : Communication.Message :=
  {| Communication.sender := sender m;
     Communication.receiver := receiver m;
     Communication.content := content m;
     Communication.message_type := message_type m;
     Communication.metadata := metadata m |}.

Definition of_Message (id' : string) (m : Communication.Message)
  : AsyncMessage :=
  {| id := id';
     sender := Communication.sender m;
     receiver := Communication.receiver m;
     content := Communication.content m;
     message_type := Communication.message_type m;
     metadata := Communication.metadata m |}.

End Queue.

(** ** src/messaging/broker.py *)

Module Broker.

(** [self.subscriptions : Dict[str, Set[str]]] is kept beside the table of
    the queue. *)
Record MessageBroker := {
  queue : Queue.AsyncMessageQueue;
  subscriptions : gmap string (gset string);
  _running : bool
}.

Definition __init__ : MessageBroker :=
  {| queue := Queue.__init__; subscriptions := ∅; _running := true |}.

Definition stop (b : MessageBroker) : MessageBroker :=
  {| queue := Queue.stop (queue b);
     subscriptions := subscriptions b;
     _running := false |}.

Definition register_agent (b : MessageBroker) (agent_id : string)
  : MessageBroker :=
  {| queue := Queue.register_agent (queue b) agent_id;
     subscriptions := subscriptions b;
     _running := _running b |}.

Definition subscribe (b : MessageBroker) (subscriber publisher : string)
  : MessageBroker :=
  let subs :=
    match subscriptions b !! publisher with
    | Some _ => subscriptions b
    | None => <[publisher := ∅]> (subscriptions b)
    end in
  {| queue := Queue.subscribe (queue b) subscriber publisher;
     subscriptions :=
       <[publisher := default ∅ (subs !! publisher) ∪ {[subscriber]}]> subs;
     _running := _running b |}.

Definition publish (b : MessageBroker) (message : Queue.AsyncMessage)
  : MessageBroker * bool :=
  let '(q, result) := Queue.publish (queue b) message in
  ({| queue := q; subscriptions := subscriptions b; _running := _running b |},
   result).

(** Calls on a broker; [start] is left out: it only sleeps while
    [_running] holds and then calls [stop]. *)
Inductive call :=
| RegisterAgent (agent_id : string)
| Subscribe (subscriber publisher : string)
| Publish (message : Queue.AsyncMessage)
| Stop.

Definition step (b : MessageBroker) (c : call) : MessageBroker :=
  match c with
  | RegisterAgent agent_id => register_agent b agent_id
  | Subscribe subscriber publisher => subscribe b subscriber publisher
  | Publish message => (publish b message).1
  | Stop => stop b
  end.

Definition run (b : MessageBroker) (cs : list call) : MessageBroker :=
  foldl step b cs.

Definition is_publish (c : call) : bool :=
  match c with
  | Publish _ => true
  | _ => false
  end.

(** [self.subscriptions.get(publisher, set())] *)
Definition subscriptions_get (b : MessageBroker) (publisher : string)
  : gset string :=
  default ∅ (subscriptions b !! publisher).

End Broker.

(** ** src/agents/base_agent.py

    The messaging methods of [RetrievIOAgent].  [self.message_queue] is a
    queue object shared by the agents of a session, so the methods take and
    return the state of that queue. *)

Module BaseAgent.

Record RetrievIOAgent := {
  name : string;
  role : string
}.

Definition _initialize_messaging (a : RetrievIOAgent)
  (q : Queue.AsyncMessageQueue) : Queue.AsyncMessageQueue :=
  Queue.register_agent q (name a).

(** [uuid] is the value of [str(uuid.uuid4())]. *)
Definition send_message (a : RetrievIOAgent) (q : Queue.AsyncMessageQueue)
  (uuid receiver content message_type : string)
  (metadata : option (gmap string string))
  : Queue.AsyncMessageQueue * bool :=
  Queue.publish q
    {| Queue.id := uuid;
       Queue.sender := name a;
       Queue.receiver := receiver;
       Queue.content := content;
       Queue.message_type := message_type;
       Queue.metadata := metadata |}.

(** The [timeout] argument is not used by the body. *)
Definition get_messages (a : RetrievIOAgent) (fuel : nat) (env : Queue.arrival)
  (q : Queue.AsyncMessageQueue) (timeout : option Q)
  : option (Queue.AsyncMessageQueue * Queue.outcome (list Queue.AsyncMessage)) :=
  Queue.get_all_messages fuel env q (name a).

Definition wait_for_message (a : RetrievIOAgent) (env : Queue.arrival)
  (q : Queue.AsyncMessageQueue) (timeout : option Q)
  : Queue.AsyncMessageQueue * Queue.outcome (option Queue.AsyncMessage) :=
  Queue.get_message env q (name a) timeout.

End BaseAgent.

(** ** src/agents/text_chunker.py

    The chunking loop of [TextChunkerAgent.chunk_text].  A text is the list
    of its characters; indices and sizes are Python integers. *)

Module TextChunker.

Record TextChunk := {
  text : list Ascii.ascii;
  start_idx : Z;
  end_idx : Z;
  metadata : gmap string string
}.

(** Bound of a slice [s[i:j]]: a negative index counts from the end, and
    the result is clipped to [0 .. len]. *)
Definition slice_index (len i : Z) : Z :=
  if (i <? 0)%Z then Z.max 0 (i + len) else Z.min i len.

(** [s[start:stop]] *)
Definition slice (s : list Ascii.ascii) (start stop : Z) : list Ascii.ascii :=
  let len := Z.of_nat (length s) in
  let lo := slice_index len start in
  let hi := slice_index len stop in
  take (Z.to_nat (hi - lo)) (drop (Z.to_nat lo) s).

(** The highest index among [lo .. lo + n - 1] holding [c], or [-1]. *)
Fixpoint rfind_down (c : Ascii.ascii) (s : list Ascii.ascii) (lo n : nat) : Z :=
  match n with
  | O => (-1)%Z
  | S n' =>
      match s !! (lo + n')%nat with
      | Some c' =>
          if bool_decide (c' = c) then Z.of_nat (lo + n')
          else rfind_down c s lo n'
      | None => rfind_down c s lo n'
      end
  end.

(** [s.rfind(c, start, stop)] for a one-character [c]: [stop] is clipped as
    for a slice, a negative [start] counts from the end, and the search runs
    over the indices from [start] up to [stop], excluded. *)
Definition rfind (c : Ascii.ascii) (s : list Ascii.ascii) (start stop : Z) : Z :=
  let len := Z.of_nat (length s) in
  let hi :=
    if (len <? stop)%Z then len
    else if (stop <? 0)%Z then Z.max 0 (stop + len) else stop in
  let lo := if (start <? 0)%Z then Z.max 0 (start + len) else start in
  rfind_down c s (Z.to_nat lo) (Z.to_nat (hi - lo)).

(** The end of the chunk that starts at [start]. *)
Definition chunk_end (chunk_size : Z) (s : list Ascii.ascii) (start : Z) : Z :=
  let stop := (start + chunk_size)%Z in
  if (stop <? Z.of_nat (length s))%Z then (rfind " "%char s start stop + 1)%Z
  else stop.

(** The [while start < len(text)] loop; [fuel] bounds the number of tests of
    its condition, [None] means that the bound was reached. *)
Fixpoint chunk_text_loop (fuel : nat) (chunk_size overlap : Z)
  (s : list Ascii.ascii) (metadata' : option (gmap string string))
  (start : Z) (chunks : list TextChunk) : option (list TextChunk) :=
  match fuel with
  | O => None
  | S fuel' =>
      if (start <? Z.of_nat (length s))%Z then
        let stop := chunk_end chunk_size s start in
        let chunk := {| text := slice s start stop;
                        start_idx := start;
                        end_idx := stop;
                        metadata := default ∅ metadata' |} in
        chunk_text_loop fuel' chunk_size overlap s metadata'
          (stop - overlap)%Z (chunks ++ [chunk])
      else Some chunks
  end.

(** The chunks computed by [chunk_text] ([chunks = []], [start = 0]). *)
Definition chunk_text_chunks (fuel : nat) (chunk_size overlap : Z)
  (s : list Ascii.ascii) (metadata' : option (gmap string string))
  : option (list TextChunk) :=
  chunk_text_loop fuel chunk_size overlap s metadata' 0%Z [].

End TextChunker.

(** ** Readings of a sequence of coordinator calls *)

Module FlowTrace.

(** The flow id a call is about. *)
Definition call_flow_id (c : Coordinator.call) : string :=
  match c with
  | Coordinator.StartFlow flow_id _ => flow_id
  | Coordinator.UpdateFlow flow_id _ _ => flow_id
  | Coordinator.GetFlowStatus flow_id => flow_id
  end.

(** The steps passed to [update_flow] for [flow_id], in call order. *)
Definition steps_recorded (flow_id : string) (cs : list Coordinator.call)
  : list string :=
  omap (λ c, match c with
             | Coordinator.UpdateFlow flow_id' _ st =>
                 if bool_decide (flow_id' = flow_id) then Some st else None
             | _ => None
             end) cs.

(** The statuses passed to [update_flow] for [flow_id], in call order. *)
Definition statuses_recorded (flow_id : string) (cs : list Coordinator.call)
  : list string :=
  omap (λ c, match c with
             | Coordinator.UpdateFlow flow_id' status' _ =>
                 if bool_decide (flow_id' = flow_id) then Some status' else None
             | _ => None
             end) cs.

End FlowTrace.

(** * Properties *)

(** ** Flow coordinator *)

Section FlowCoordinator.
Import Coordinator.

Lemma steps_of_start_flow fc flow_id document_path :
  steps_of (start_flow fc flow_id document_path) flow_id = Some [].
Proof. unfold steps_of, start_flow; simpl. by rewrite lookup_insert_eq. Qed.

Lemma steps_of_start_flow_ne fc flow_id flow_id' document_path :
  flow_id' ≠ flow_id →
  steps_of (start_flow fc flow_id' document_path) flow_id = steps_of fc flow_id.
Proof.
  intros Hne. unfold steps_of, start_flow; simpl.
  by rewrite lookup_insert_ne.
Qed.

Lemma steps_of_update_flow fc flow_id flow_id' status' st old :
  steps_of fc flow_id = Some old →
  steps_of (update_flow fc flow_id' status' st) flow_id =
    Some (if bool_decide (flow_id' = flow_id) then old ++ [st] else old).
Proof.
  unfold steps_of, update_flow. intros Hold.
  case_bool_decide as Heq.
  - subst flow_id'. destruct (active_flows fc !! flow_id) as [fl|] eqn:Hfl;
      [|discriminate].
    simpl in *. rewrite lookup_insert_eq. simpl. congruence.
  - destruct (active_flows fc !! flow_id') as [fl'|]; [|done].
    simpl. by rewrite lookup_insert_ne.
Qed.

Lemma step_keeps_steps fc c flow_id old :
  restarts flow_id c = false →
  steps_of fc flow_id = Some old →
  ∃ new, steps_of (step fc c) flow_id = Some new ∧ old `prefix_of` new.
Proof.
  intros Hc Hold. destruct c as [flow_id' doc|flow_id' status' st|flow_id'];
    simpl in *.
  - apply bool_decide_eq_false in Hc.
    exists old. by rewrite steps_of_start_flow_ne.
  - erewrite steps_of_update_flow by done.
    case_bool_decide; eexists; split; try done.
    by apply prefix_app_r.
  - by exists old.
Qed.

(** C5, as amended: for an existing flow, every sequence of coordinator
    calls that does not call [start_flow] on its id keeps the steps recorded
    so far as a prefix of [steps_completed] (nothing is removed or
    reordered by [update_flow], [get_flow_status], or [start_flow] on other
    ids), whereas [start_flow] on the id of an existing flow replaces it by a
    flow whose [steps_completed] is empty. *)
Theorem steps_completed_grows_without_restart
    (fc : FlowCoordinator) (cs : list call) (flow_id document_path : string)
    (old : list string) :
  steps_of fc flow_id = Some old →
  Forall (λ c, restarts flow_id c = false) cs →
  (∃ new, steps_of (run fc cs) flow_id = Some new ∧ old `prefix_of` new) ∧
  steps_of (start_flow (run fc cs) flow_id document_path) flow_id = Some [].
Proof.
  intros Hold Hcs. split; [|apply steps_of_start_flow].
  revert fc old Hold. unfold run.
  induction Hcs as [|c cs Hc _ IH]; intros fc old Hold; simpl.
  - by exists old.
  - destruct (step_keeps_steps fc c flow_id old Hc Hold) as (mid & Hmid & Hpre).
    destruct (IH _ _ Hmid) as (new & Hnew & Hpre').
    exists new. split; [done|]. by etrans.
Qed.

Lemma steps_completed_grows_without_restart_witness :
  let fc := run __init__ [StartFlow "f1" "doc.pdf";
                          UpdateFlow "f1" "parsed" "parsing"] in
  let cs := [UpdateFlow "f1" "chunked" "chunking"; GetFlowStatus "f1";
             StartFlow "f2" "other.pdf"; UpdateFlow "f2" "parsed" "parsing"] in
  (∃ new, steps_of (run fc cs) "f1" = Some new ∧ ["parsing"] `prefix_of` new) ∧
  steps_of (start_flow (run fc cs) "f1" "doc.pdf") "f1" = Some [].
Proof.
  intros fc cs.
  apply (steps_completed_grows_without_restart fc cs "f1" "doc.pdf" ["parsing"]).
  - reflexivity.
  - repeat constructor.
Defined.

(** C5 as stated fails: a second [start_flow] on the id of a flow that has
    completed steps leaves it with none. *)
Lemma start_flow_discards_completed_steps :
  ¬ (∀ (fc : FlowCoordinator) (c : call) (flow_id : string) (old : list string),
        steps_of fc flow_id = Some old →
        ∃ new, steps_of (step fc c) flow_id = Some new ∧ old `prefix_of` new).
Proof.
  intros H.
  destruct (H (run __init__ [StartFlow "f1" "doc.pdf";
                             UpdateFlow "f1" "parsed" "parsing"])
              (StartFlow "f1" "doc.pdf") "f1" ["parsing"] eq_refl)
    as (new & Hnew & Hpre).
  vm_compute in Hnew. injection Hnew as <-.
  destruct Hpre as [k Hk]. discriminate Hk.
Qed.

(** C8: [update_flow] on an id that is not in [active_flows] returns
    normally, leaves the coordinator unchanged, and in particular does not
    create the flow. *)
Theorem update_flow_missing_ignored
    (fc : FlowCoordinator) (flow_id status' st : string) :
  active_flows fc !! flow_id = None →
  update_flow fc flow_id status' st = fc ∧
  get_flow_status (update_flow fc flow_id status' st) flow_id = None.
Proof.
  intros Hnone. unfold get_flow_status, update_flow. by rewrite Hnone.
Qed.

Lemma update_flow_missing_ignored_witness :
  let fc := start_flow __init__ "f1" "doc.pdf" in
  update_flow fc "missing-id" "parsed" "parsing" = fc ∧
  get_flow_status (update_flow fc "missing-id" "parsed" "parsing") "missing-id"
    = None.
Proof.
  intros fc.
  apply (update_flow_missing_ignored fc "missing-id" "parsed" "parsing").
  reflexivity.
Defined.

End FlowCoordinator.

(** ** The two message classes *)

Section MessageShape.
Import Queue.

(** C9, as amended: every field of [Message] is a field of [AsyncMessage]
    with the same name, annotation and default, in the same order;
    [AsyncMessage] has one more field, the required [id], which [Message]
    lacks.  So an [AsyncMessage] yields a [Message] by dropping its [id],
    every [Message] is obtained that way, and turning a [Message] into an
    [AsyncMessage] takes an id that the [Message] does not carry. *)
Theorem message_fields_shared_except_id :
  AsyncMessage_fields = Field "id" "str" None :: Communication.Message_fields ∧
  required (Field "id" "str" None) = true ∧
  ("id" ∉ field_names Communication.Message_fields) ∧
  (∀ (i : string) (msg : Communication.Message),
      to_Message (of_Message i msg) = msg) ∧
  (∀ m : AsyncMessage, of_Message (id m) (to_Message m) = m).
Proof.
  split; [reflexivity|]. split; [reflexivity|]. split.
  - unfold field_names; simpl. rewrite !elem_of_cons, elem_of_nil.
    intros [?|[?|[?|[?|[?|[]]]]]]; discriminate.
  - split.
    + by intros i [].
    + by intros [].
Qed.

(** C9 as stated fails: the field [id] of [AsyncMessage] has no field of the
    same name in [Message]. *)
Lemma async_message_id_has_no_counterpart :
  ¬ (∀ f : field, f ∈ AsyncMessage_fields →
       ∃ g : field, g ∈ Communication.Message_fields ∧
                    field_name g = field_name f).
Proof.
  intros H.
  destruct (H (Field "id" "str" None)) as (g & Hg & Hname).
  - apply elem_of_cons. by left.
  - unfold Communication.Message_fields in Hg.
    rewrite !elem_of_cons, elem_of_nil in Hg.
    destruct Hg as [->|[->|[->|[->|[->|[]]]]]]; discriminate Hname.
Qed.

End MessageShape.

(** ** Asynchronous message queue *)

Section AsyncQueue.
Import Queue.

Implicit Types (q : AsyncMessageQueue) (message : AsyncMessage).
Implicit Types (qs : gmap string (list AsyncMessage)).

(** *** Delivery *)

Lemma occurrences_cons r x l :
  occurrences r (x :: l) =
    if bool_decide (x = r) then S (occurrences r l) else occurrences r l.
Proof.
  unfold occurrences. rewrite filter_cons.
  case_bool_decide; by rewrite ?decide_True, ?decide_False by done.
Qed.

Lemma occurrences_app r l1 l2 :
  occurrences r (l1 ++ l2) = occurrences r l1 + occurrences r l2.
Proof. unfold occurrences. by rewrite filter_app, length_app. Qed.

Lemma occurrences_elem_of r l : r ∈ l → 0 < occurrences r l.
Proof.
  induction 1 as [|x y l _ IH]; rewrite occurrences_cons.
  - rewrite bool_decide_eq_true_2 by done. lia.
  - case_bool_decide; lia.
Qed.

Lemma occurrences_registered q r l :
  is_Some (queues q !! r) →
  occurrences r (filter (λ x, is_Some (queues q !! x)) l) = occurrences r l.
Proof.
  intros Hr. induction l as [|x l IH]; [done|].
  rewrite filter_cons. destruct (decide (is_Some (queues q !! x))) as [Hx|Hx].
  - rewrite !occurrences_cons. by rewrite IH.
  - rewrite occurrences_cons, bool_decide_eq_false_2; [done|].
    intros ->. contradiction.
Qed.

Lemma lookup_put message qs r x :
  put message qs x !! r =
    (λ pending, if bool_decide (x = r) then pending ++ [message] else pending)
      <$> qs !! r.
Proof.
  unfold put. case_bool_decide as Hx.
  - subst x. by rewrite lookup_alter_eq.
  - rewrite lookup_alter_ne by done. by destruct (qs !! r).
Qed.

Lemma lookup_foldl_put message tasks qs r :
  foldl (put message) qs tasks !! r =
    (λ pending, pending ++ replicate (occurrences r tasks) message) <$> qs !! r.
Proof.
  revert qs. induction tasks as [|x tasks IH]; intros qs; simpl.
  - destruct (qs !! r); simpl; [|done]. by rewrite app_nil_r.
  - rewrite IH, lookup_put, occurrences_cons.
    destruct (qs !! r) as [pending|]; simpl; [|done].
    case_bool_decide; [|done]. by rewrite <- app_assoc.
Qed.

(** Every mailbox after [publish]: the message is appended once per
    occurrence of the agent in the list of receivers; no mailbox is
    created. *)
Lemma lookup_publish q message r :
  queues (publish q message).1 !! r =
    (λ pending,
       pending ++ replicate (occurrences r (publish_receivers q message)) message)
      <$> queues q !! r.
Proof.
  unfold publish, publish_tasks; simpl. rewrite lookup_foldl_put.
  destruct (queues q !! r) as [pending|] eqn:Hr; simpl; [|done].
  by rewrite occurrences_registered by (by rewrite Hr).
Qed.

Lemma str_truthy_ne s : s ≠ "" → str_truthy s = true.
Proof. by destruct s. Qed.

(** *** The subscription table *)

Lemma publish_subscribers_stored q message subs :
  subscribers q !! sender message = Some subs →
  receiver message ≠ "" →
  publish_subscribers q message =
    <[sender message := subs ++ [receiver message]]> (subscribers q).
Proof.
  intros Hsubs Hr. unfold publish_subscribers, publish_receivers, subscribers_get.
  by rewrite Hsubs, str_truthy_ne.
Qed.

(** A sender without a stored list: the receiver is appended to a fresh
    list and the table stays as it is. *)
Lemma publish_subscribers_fresh q message :
  subscribers q !! sender message = None →
  subscribers (publish q message).1 = subscribers q.
Proof. intros Hnone. simpl. unfold publish_subscribers. by rewrite Hnone. Qed.

Lemma subscribers_get_message env q agent_id timeout :
  subscribers (get_message env q agent_id timeout).1 = subscribers q.
Proof.
  unfold get_message.
  destruct (queues q !! agent_id) as [pending|]; [|done].
  destruct (timeout_truthy timeout).
  - by destruct (wait_for_get _ _ _) as [[??]|].
  - by destruct (queue_get _ _) as [[??]|].
Qed.

Lemma subscribers_get_all_messages_loop fuel env q agent_id messages q' res :
  get_all_messages_loop fuel env q agent_id messages = Some (q', res) →
  subscribers q' = subscribers q.
Proof.
  revert q messages.
  induction fuel as [|fuel IH]; intros q messages; simpl; [done|].
  destruct (defaultdict_getitem [] agent_id (queues q)) as [qs pending].
  destruct pending as [|m rest].
  - by intros [= <- _].
  - set (q1 := {| queues := qs; subscribers := subscribers q;
                  _running := _running q |}).
    pose proof (subscribers_get_message env q1 agent_id None) as Hget.
    destruct (get_message env q1 agent_id None) as [q2 [[message|]|]];
      simpl in Hget.
    + intros Hloop. apply IH in Hloop. congruence.
    + intros Hloop. apply IH in Hloop. congruence.
    + by intros [= <- _].
Qed.

Lemma subscribers_get_subscribe q subscriber publisher s r :
  r ∈ subscribers_get q s →
  r ∈ subscribers_get (subscribe q subscriber publisher) s.
Proof.
  unfold subscribers_get, subscribe, defaultdict_getitem. intros Hr.
  destruct (decide (publisher = s)) as [->|Hne].
  - destruct (subscribers q !! s) as [l|] eqn:Hl; simpl in *.
    + case_bool_decide; simpl; [by rewrite Hl|].
      rewrite lookup_insert_eq; simpl. apply elem_of_app. by left.
    + by apply elem_of_nil in Hr.
  - destruct (subscribers q !! publisher) as [l|];
      destruct (bool_decide _); simpl; by rewrite ?lookup_insert_ne by done.
Qed.

Lemma subscribers_get_publish q message s r :
  r ∈ subscribers_get q s →
  r ∈ subscribers_get (publish q message).1 s.
Proof.
  unfold subscribers_get; simpl. unfold publish_subscribers. intros Hr.
  destruct (subscribers q !! sender message) as [l|] eqn:Hl; [|done].
  destruct (str_truthy (receiver message)) eqn:Ht; [|done].
  destruct (decide (sender message = s)) as [<-|Hne].
  - rewrite lookup_insert_eq; simpl.
    unfold publish_receivers, subscribers_get. rewrite Hl, Ht; simpl.
    rewrite Hl in Hr. apply elem_of_app. by left.
  - by rewrite lookup_insert_ne.
Qed.

(** No method of the queue removes a subscriber from a stored list. *)
Lemma later_subscribers_get q q' s r :
  later q q' → r ∈ subscribers_get q s → r ∈ subscribers_get q' s.
Proof.
  intros Hlater Hr.
  induction Hlater as [|q' a _ IH|q' sub p _ IH|q' m _ IH|q' env a t _ IH
                       |q' fuel env a q'' res _ IH Hall|q' _ IH].
  - done.
  - unfold subscribers_get, register_agent in *.
    by destruct (queues q' !! a).
  - by apply subscribers_get_subscribe.
  - by apply subscribers_get_publish.
  - unfold subscribers_get in *. by rewrite subscribers_get_message.
  - unfold subscribers_get in *.
    by rewrite (subscribers_get_all_messages_loop _ _ _ _ _ _ _ Hall).
  - done.
Qed.

(** In every state reached from a new queue a stored subscriber list is
    non-empty: a publisher has a stored list exactly when it has a
    subscriber. *)
Lemma later_stored_subscribers_nonempty q s l :
  later __init__ q → subscribers q !! s = Some l → l ≠ [].
Proof.
  intros Hlater. revert s l.
  induction Hlater as [|q' a _ IH|q' sub p _ IH|q' m _ IH|q' env a t _ IH
                       |q' fuel env a q'' res _ IH Hall|q' _ IH];
    intros s l.
  - unfold __init__; simpl. by rewrite lookup_empty.
  - unfold register_agent. destruct (queues q' !! a); apply IH.
  - unfold subscribe, defaultdict_getitem.
    destruct (subscribers q' !! p) as [l'|] eqn:Hp.
    + case_bool_decide; simpl; [apply IH|].
      destruct (decide (p = s)) as [->|Hne].
      * rewrite lookup_insert_eq. intros [= <-]. by destruct l'.
      * rewrite lookup_insert_ne by done. apply IH.
    + rewrite bool_decide_eq_false_2 by apply not_elem_of_nil; simpl.
      rewrite insert_insert_eq.
      destruct (decide (p = s)) as [->|Hne].
      * rewrite lookup_insert_eq. by intros [= <-].
      * rewrite lookup_insert_ne by done. apply IH.
  - simpl. unfold publish_subscribers.
    destruct (subscribers q' !! sender m) as [l'|] eqn:Hm; [|apply IH].
    destruct (str_truthy (receiver m)) eqn:Ht; [|apply IH].
    destruct (decide (sender m = s)) as [<-|Hne].
    + rewrite lookup_insert_eq. unfold publish_receivers. rewrite Ht.
      intros [= <-]. by destruct (subscribers_get q' (sender m)).
    + rewrite lookup_insert_ne by done. apply IH.
  - rewrite subscribers_get_message. apply IH.
  - rewrite (subscribers_get_all_messages_loop _ _ _ _ _ _ _ Hall). apply IH.
  - apply IH.
Qed.

Lemma publish_receivers_subscriber q message r :
  r ∈ subscribers_get q (sender message) → r ∈ publish_receivers q message.
Proof.
  intros Hr. unfold publish_receivers.
  destruct (str_truthy (receiver message)); [|done].
  apply elem_of_app. by left.
Qed.

Lemma publish_receivers_explicit q message :
  receiver message ≠ "" →
  publish_receivers q message =
    subscribers_get q (sender message) ++ [receiver message].
Proof. intros Hr. unfold publish_receivers. by rewrite str_truthy_ne. Qed.

(** A target that is both a subscriber of the sender and the explicit
    receiver occurs at least twice among the receivers, and gets as many
    copies. *)
Lemma publish_receiver_also_subscriber q message pending :
  receiver message ≠ "" →
  receiver message ∈ subscribers_get q (sender message) →
  queues q !! receiver message = Some pending →
  ∃ k : nat, (2 ≤ k)%nat ∧
       queues (publish q message).1 !! receiver message =
         Some (pending ++ replicate k message).
Proof.
  intros Hne Hin Hq.
  exists (occurrences (receiver message) (publish_receivers q message)).
  split.
  - rewrite publish_receivers_explicit, occurrences_app by done.
    apply occurrences_elem_of in Hin.
    rewrite (occurrences_cons _ _ []), bool_decide_eq_true_2 by done. lia.
  - by rewrite lookup_publish, Hq.
Qed.

(** *** Claims on [publish] *)

(** C1 (the code departs from it): the claim asks for exactly one copy in
    the mailbox of an explicit receiver that also subscribes to the sender.
    With [X] registered and subscribed to [S], publishing one message from
    [S] to [X] leaves two copies in the mailbox of [X]: the receivers are
    not deduplicated. *)
Theorem publish_receiver_also_subscriber_two_copies :
  let m := {| id := "m1"; sender := "S"; receiver := "X"; content := "hello";
              message_type := "data"; metadata := None |} in
  let q := subscribe (register_agent (register_agent __init__ "S") "X")
             "X" "S" in
  subscribers_get q "S" = ["X"] ∧
  queues q !! "X" = Some [] ∧
  publish_receivers q m = ["X"; "X"] ∧
  queues (publish q m).1 !! "X" = Some [m; m].
Proof. vm_compute. done. Qed.

(** C2: when the sender has a stored subscriber list, publishing a message
    with a non-empty receiver stores that list with the receiver appended,
    so the subscription table is changed; in every later state the past
    receiver is among the receivers of each message published by that
    sender, and such a publish appends the message to the mailbox of the
    past receiver (when it has one). *)
Theorem publish_appends_receiver_to_subscribers
    (q : AsyncMessageQueue) (message : AsyncMessage) (subs : list string) :
  subscribers q !! sender message = Some subs →
  subs ≠ [] →
  receiver message ≠ "" →
  subscribers (publish q message).1 =
    <[sender message := subs ++ [receiver message]]> (subscribers q) ∧
  subscribers (publish q message).1 ≠ subscribers q ∧
  ∀ (q' : AsyncMessageQueue) (message' : AsyncMessage),
    later (publish q message).1 q' →
    sender message' = sender message →
    receiver message ∈ publish_receivers q' message' ∧
    ∀ pending : list AsyncMessage,
      queues q' !! receiver message = Some pending →
      ∃ k : nat, 0 < k ∧
        queues (publish q' message').1 !! receiver message =
          Some (pending ++ replicate k message').
Proof.
  intros Hsubs _ Hne.
  assert (subscribers (publish q message).1 =
            <[sender message := subs ++ [receiver message]]> (subscribers q))
    as Htable by (by apply publish_subscribers_stored).
  split; [done|]. split.
  - rewrite Htable. intros Heq.
    apply (f_equal (λ t, t !! sender message)) in Heq.
    rewrite lookup_insert_eq, Hsubs in Heq.
    injection Heq as Heq. apply (f_equal length) in Heq.
    rewrite length_app in Heq; simpl in Heq. lia.
  - intros q' message' Hlater Hsender.
    assert (receiver message ∈ publish_receivers q' message') as Hin.
    { apply publish_receivers_subscriber. rewrite Hsender.
      apply (later_subscribers_get _ _ _ _ Hlater).
      unfold subscribers_get. rewrite Htable, lookup_insert_eq; simpl.
      apply elem_of_app. right. by apply list_elem_of_singleton. }
    split; [done|]. intros pending Hpending.
    exists (occurrences (receiver message) (publish_receivers q' message')).
    split; [by apply occurrences_elem_of|].
    by rewrite lookup_publish, Hpending.
Qed.

Lemma publish_appends_receiver_to_subscribers_witness :
  let m := {| id := "m1"; sender := "S"; receiver := "R"; content := "hello";
              message_type := "data"; metadata := None |} in
  let q := subscribe (register_agent (register_agent __init__ "R") "X")
             "X" "S" in
  subscribers (publish q m).1 = <[sender m := ["X"] ++ [receiver m]]> (subscribers q) ∧
  subscribers (publish q m).1 ≠ subscribers q ∧
  ∀ (q' : AsyncMessageQueue) (message' : AsyncMessage),
    later (publish q m).1 q' →
    sender message' = sender m →
    receiver m ∈ publish_receivers q' message' ∧
    ∀ pending : list AsyncMessage,
      queues q' !! receiver m = Some pending →
      ∃ k : nat, 0 < k ∧
        queues (publish q' message').1 !! receiver m =
          Some (pending ++ replicate k message').
Proof.
  intros m q.
  apply (publish_appends_receiver_to_subscribers q m ["X"]).
  - reflexivity.
  - discriminate.
  - discriminate.
Defined.

(** C3, as amended: [publish] returns [True] for every message: when a
    delivery was made, when there was no receiver at all, and also when
    there were receivers but none of them is registered; in that last case
    no mailbox changes. *)
Theorem publish_returns_true (q : AsyncMessageQueue) (message : AsyncMessage) :
  (publish q message).2 = true ∧
  queues (publish q message).1 =
    match publish_tasks q message with
    | [] => queues q
    | _ :: _ => foldl (put message) (queues q) (publish_tasks q message)
    end.
Proof. split; [done|]. simpl. by destruct (publish_tasks q message). Qed.

(** C3 as stated fails: with a receiver that is not registered and no
    subscriber, there is a resolved target, no delivery is made, and
    [publish] still returns [True]. *)
Lemma publish_true_without_delivery :
  ¬ (∀ (q : AsyncMessageQueue) (message : AsyncMessage),
        publish_receivers q message ≠ [] →
        publish_tasks q message = [] →
        (publish q message).2 = false).
Proof.
  intros H.
  specialize (H __init__
                {| id := "m1"; sender := "S"; receiver := "ghost";
                   content := "hello"; message_type := "data";
                   metadata := None |}).
  discriminate H; [discriminate|reflexivity].
Qed.

(** C4, as amended: on the async path a receiver that was never registered
    is skipped without any error: [publish] returns [True], creates no
    mailbox for it and leaves every mailbox as it was when no receiver is
    registered; for a registered receiver the message is appended at the
    tail of its mailbox. *)
Theorem publish_skips_unregistered_receiver
    (q : AsyncMessageQueue) (message : AsyncMessage) (r : string) :
  r ∈ publish_receivers q message →
  (queues q !! r = None →
     (publish q message).2 = true ∧
     queues (publish q message).1 !! r = None) ∧
  (∀ pending : list AsyncMessage,
     queues q !! r = Some pending →
     ∃ k : nat, 0 < k ∧
       queues (publish q message).1 !! r = Some (pending ++ replicate k message)).
Proof.
  intros Hin. split.
  - intros Hnone. split; [done|]. by rewrite lookup_publish, Hnone.
  - intros pending Hpending.
    exists (occurrences r (publish_receivers q message)).
    split; [by apply occurrences_elem_of|].
    by rewrite lookup_publish, Hpending.
Qed.

Lemma publish_skips_unregistered_receiver_witness :
  let m := {| id := "m1"; sender := "S"; receiver := "ghost";
              content := "hello"; message_type := "data"; metadata := None |} in
  let q := register_agent __init__ "S" in
  (queues q !! "ghost" = None →
     (publish q m).2 = true ∧ queues (publish q m).1 !! "ghost" = None) ∧
  (∀ pending : list AsyncMessage,
     queues q !! "ghost" = Some pending →
     ∃ k : nat, 0 < k ∧
       queues (publish q m).1 !! "ghost" = Some (pending ++ replicate k m)).
Proof.
  intros m q.
  apply (publish_skips_unregistered_receiver q m "ghost").
  vm_compute. apply list_elem_of_here.
Defined.

(** C4 as stated fails: publishing to a receiver that was never registered
    is not reported as a failure; the call returns [True] and the queue is
    exactly as before, the receiver having been skipped. *)
Lemma publish_unregistered_receiver_no_error :
  let m := {| id := "m1"; sender := "S"; receiver := "ghost";
              content := "hello"; message_type := "data"; metadata := None |} in
  let q := register_agent __init__ "S" in
  queues q !! "ghost" = None ∧
  "ghost" ∈ publish_receivers q m ∧
  publish_tasks q m = [] ∧
  publish q m = (q, true).
Proof.
  intros m q. split; [reflexivity|]. split; [|split; reflexivity].
  vm_compute. apply list_elem_of_here.
Qed.

(** *** Claims on [get_message] and [get_all_messages] *)

Lemma timeout_truthy_pos (t : Q) : (0 < t)%Q → timeout_truthy (Some t) = true.
Proof.
  intros Ht. simpl. apply negb_true_iff, not_true_is_false.
  intros Heq%Qeq_bool_iff. rewrite Heq in Ht. by apply Qlt_irrefl in Ht.
Qed.

Lemma timeout_truthy_zero (t : Q) : (t == 0)%Q → timeout_truthy (Some t) = false.
Proof. intros Ht. simpl. apply negb_false_iff. by apply Qeq_bool_iff. Qed.

Lemma Qle_bool_pos (t : Q) : (0 < t)%Q → Qle_bool t 0 = false.
Proof.
  intros Ht. apply not_true_is_false. intros Hle%Qle_bool_iff.
  by apply Qlt_not_le in Ht.
Qed.

(** C6, as amended: for a registered agent and a positive finite timeout,
    [get_message] returns the oldest pending message and removes it when
    there is one, returns [None] when the mailbox is empty and nothing
    arrives before the timeout (and the message that arrives before it
    otherwise), and never blocks; with an absent timeout it
    returns the oldest pending message or, on an empty mailbox, stays
    suspended until a message is put, which it then returns. *)
Theorem get_message_positive_timeout
    (env : arrival) (q : AsyncMessageQueue) (agent_id : string)
    (pending : list AsyncMessage) (t : Q) :
  queues q !! agent_id = Some pending →
  (0 < t)%Q →
  (∀ m rest, pending = m :: rest →
     get_message env q agent_id (Some t) =
       (set_queue q agent_id rest, Returns (Some m))) ∧
  (pending = [] → (∀ d m, env = Some (d, m) → (t <= d)%Q) →
     get_message env q agent_id (Some t) = (q, Returns None)) ∧
  (pending = [] → ∀ d m, env = Some (d, m) → (d < t)%Q →
     get_message env q agent_id (Some t) =
       (set_queue q agent_id [], Returns (Some m))) ∧
  (get_message env q agent_id (Some t)).2 ≠ Blocks ∧
  (∀ m rest, pending = m :: rest →
     get_message env q agent_id None =
       (set_queue q agent_id rest, Returns (Some m))) ∧
  (pending = [] → env = None →
     get_message env q agent_id None = (q, Blocks)) ∧
  (pending = [] → ∀ d m, env = Some (d, m) →
     get_message env q agent_id None =
       (set_queue q agent_id [], Returns (Some m))).
Proof.
  intros Hq Ht. unfold get_message. rewrite Hq, timeout_truthy_pos by done.
  simpl. unfold wait_for_get. rewrite Qle_bool_pos by done.
  repeat split.
  - by intros m rest ->.
  - intros -> Henv. destruct env as [[d m]|]; [|done].
    by rewrite (proj2 (Qle_bool_iff t d) (Henv d m eq_refl)).
  - intros -> d m -> Hd.
    destruct (Qle_bool t d) eqn:Hle; [|done].
    apply Qle_bool_iff in Hle. by apply Qlt_not_le in Hd.
  - destruct pending as [|m rest]; [|done].
    destruct env as [[d m]|]; [|done]. by destruct (Qle_bool t d).
  - by intros m rest ->.
  - by intros -> ->.
  - by intros -> d m ->.
Qed.

Lemma get_message_positive_timeout_witness :
  let m := {| id := "m1"; sender := "S"; receiver := "A"; content := "hello";
              message_type := "data"; metadata := None |} in
  let q := (publish (register_agent __init__ "A") m).1 in
  let env : arrival := None in
  let t : Q := (1 # 5)%Q in
  (∀ m' rest, [m] = m' :: rest →
     get_message env q "A" (Some t) = (set_queue q "A" rest, Returns (Some m'))) ∧
  ([m] = [] → (∀ d m', env = Some (d, m') → (t <= d)%Q) →
     get_message env q "A" (Some t) = (q, Returns None)) ∧
  ([m] = [] → ∀ d m', env = Some (d, m') → (d < t)%Q →
     get_message env q "A" (Some t) = (set_queue q "A" [], Returns (Some m'))) ∧
  (get_message env q "A" (Some t)).2 ≠ Blocks ∧
  (∀ m' rest, [m] = m' :: rest →
     get_message env q "A" None = (set_queue q "A" rest, Returns (Some m'))) ∧
  ([m] = [] → env = None → get_message env q "A" None = (q, Blocks)) ∧
  ([m] = [] → ∀ d m', env = Some (d, m') →
     get_message env q "A" None = (set_queue q "A" [], Returns (Some m'))).
Proof.
  intros m q env t.
  apply (get_message_positive_timeout env q "A" [m] t).
  - reflexivity.
  - reflexivity.
Defined.

(** C6 as stated fails for the finite timeout 0: on the empty mailbox of a
    registered agent, with no message ever put, [get_message] does not
    return [None]; it blocks. *)
Lemma get_message_zero_timeout_no_result :
  ¬ (∀ (q : AsyncMessageQueue) (agent_id : string) (t : Q),
        queues q !! agent_id = Some [] →
        get_message None q agent_id (Some t) = (q, Returns None)).
Proof.
  intros H.
  specialize (H (register_agent __init__ "A") "A" 0%Q eq_refl).
  discriminate H.
Qed.

(** C10: for a registered agent with an empty mailbox, [get_message] with a
    timeout equal to 0 behaves as with no timeout: it does not return
    [None]; the caller stays suspended when nothing is ever put, and
    receives the message once one is put, however late. *)
Theorem get_message_zero_timeout_blocks
    (env : arrival) (q : AsyncMessageQueue) (agent_id : string) (t : Q) :
  queues q !! agent_id = Some [] →
  (t == 0)%Q →
  get_message env q agent_id (Some t) = get_message env q agent_id None ∧
  (env = None → get_message env q agent_id (Some t) = (q, Blocks)) ∧
  (∀ d m, env = Some (d, m) →
     get_message env q agent_id (Some t) =
       (set_queue q agent_id [], Returns (Some m))) ∧
  (get_message env q agent_id (Some t)).2 ≠ Returns None.
Proof.
  intros Hq Ht. unfold get_message.
  rewrite Hq, timeout_truthy_zero by done. simpl.
  repeat split.
  - by intros ->.
  - by intros d m ->.
  - by destruct env as [[d m]|].
Qed.

Lemma get_message_zero_timeout_blocks_witness :
  let q := register_agent __init__ "A" in
  let env : arrival := None in
  get_message env q "A" (Some 0%Q) = get_message env q "A" None ∧
  (env = None → get_message env q "A" (Some 0%Q) = (q, Blocks)) ∧
  (∀ d m, env = Some (d, m) →
     get_message env q "A" (Some 0%Q) =
       (set_queue q "A" [], Returns (Some m))) ∧
  (get_message env q "A" (Some 0%Q)).2 ≠ Returns None.
Proof.
  intros q env.
  apply (get_message_zero_timeout_blocks env q "A" 0%Q).
  - reflexivity.
  - reflexivity.
Defined.

Lemma queue_eta q :
  {| queues := queues q; subscribers := subscribers q;
     _running := _running q |} = q.
Proof. by destruct q. Qed.

Lemma set_queue_id q agent_id pending :
  queues q !! agent_id = Some pending → set_queue q agent_id pending = q.
Proof.
  intros Hq. unfold set_queue. rewrite insert_id by done. apply queue_eta.
Qed.

Lemma set_queue_set_queue q agent_id pending pending' :
  set_queue (set_queue q agent_id pending) agent_id pending' =
    set_queue q agent_id pending'.
Proof. unfold set_queue; simpl. by rewrite insert_insert_eq. Qed.

(** The loop pops the pending messages one by one, oldest first. *)
Lemma get_all_messages_loop_drains env agent_id pending :
  ∀ fuel q messages,
    queues q !! agent_id = Some pending →
    length pending < fuel →
    get_all_messages_loop fuel env q agent_id messages =
      Some (set_queue q agent_id [], Returns (messages ++ pending)).
Proof.
  induction pending as [|m rest IH]; intros fuel q messages Hq Hfuel;
    (destruct fuel as [|fuel]; [simpl in Hfuel; lia|]); simpl;
    unfold defaultdict_getitem; rewrite Hq, queue_eta.
  - by rewrite app_nil_r, set_queue_id.
  - unfold get_message. rewrite Hq; simpl.
    rewrite IH.
    + by rewrite set_queue_set_queue, <- app_assoc.
    + simpl. by rewrite lookup_insert_eq.
    + simpl in Hfuel. lia.
Qed.

(** C7: for a registered agent, [get_all_messages] returns (it neither
    raises nor blocks, given enough iterations for the pending messages)
    every queued message in arrival order and leaves the mailbox empty; a
    second call right after returns the empty list. *)
Theorem get_all_messages_drains_in_order
    (env : arrival) (q : AsyncMessageQueue) (agent_id : string)
    (pending : list AsyncMessage) (fuel : nat) :
  queues q !! agent_id = Some pending →
  length pending < fuel →
  get_all_messages fuel env q agent_id =
    Some (set_queue q agent_id [], Returns pending) ∧
  queues (set_queue q agent_id []) !! agent_id = Some [] ∧
  get_all_messages fuel env (set_queue q agent_id []) agent_id =
    Some (set_queue q agent_id [], Returns []).
Proof.
  intros Hq Hfuel. unfold get_all_messages.
  assert (queues (set_queue q agent_id []) !! agent_id = Some []) as Hempty
    by (simpl; by rewrite lookup_insert_eq).
  split; [|split; [done|]].
  - by rewrite (get_all_messages_loop_drains env agent_id pending).
  - rewrite (get_all_messages_loop_drains env agent_id []); simpl; try done.
    + by rewrite set_queue_set_queue.
    + lia.
Qed.

Lemma get_all_messages_drains_in_order_witness :
  let m1 := {| id := "m1"; sender := "S"; receiver := "A"; content := "one";
               message_type := "data"; metadata := None |} in
  let m2 := {| id := "m2"; sender := "S"; receiver := "A"; content := "two";
               message_type := "data"; metadata := None |} in
  let q := (publish (publish (register_agent __init__ "A") m1).1 m2).1 in
  get_all_messages 3 None q "A" = Some (set_queue q "A" [], Returns [m1; m2]) ∧
  queues (set_queue q "A" []) !! "A" = Some [] ∧
  get_all_messages 3 None (set_queue q "A" []) "A" =
    Some (set_queue q "A" [], Returns []).
Proof.
  intros m1 m2 q.
  apply (get_all_messages_drains_in_order None q "A" [m1; m2] 3).
  - reflexivity.
  - simpl. lia.
Defined.

End AsyncQueue.

(** ** Asynchronous message queue: registration, frames and round trips *)

Section AsyncQueueCalls.
Import Queue.

Implicit Types (q : AsyncMessageQueue) (message : AsyncMessage).

Lemma occurrences_not_elem_of r l : r ∉ l → occurrences r l = 0.
Proof.
  induction l as [|x l IH]; [done|]. intros Hr.
  apply not_elem_of_cons in Hr as [Hne Hr].
  rewrite occurrences_cons, bool_decide_eq_false_2 by done. by apply IH.
Qed.

Lemma occurrences_NoDup r l : NoDup l → r ∈ l → occurrences r l = 1.
Proof.
  induction 1 as [|x l Hx _ IH]; [by intros ?%elem_of_nil|].
  rewrite occurrences_cons. intros [->|Hr]%elem_of_cons.
  - rewrite bool_decide_eq_true_2 by done.
    by rewrite occurrences_not_elem_of.
  - rewrite bool_decide_eq_false_2; [by apply IH|]. by intros ->.
Qed.

(** X1: [register_agent] gives the agent a mailbox, empty when the agent is
    new, and keeps the pending messages of every mailbox, also when the
    agent was registered before; registering twice is registering once. *)
Theorem register_agent_keeps_pending q (agent_id : string) :
  is_Some (queues (register_agent q agent_id) !! agent_id) ∧
  (queues q !! agent_id = None →
     queues (register_agent q agent_id) !! agent_id = Some []) ∧
  (∀ r pending, queues q !! r = Some pending →
     queues (register_agent q agent_id) !! r = Some pending) ∧
  register_agent (register_agent q agent_id) agent_id =
    register_agent q agent_id ∧
  subscribers (register_agent q agent_id) = subscribers q.
Proof.
  unfold register_agent.
  destruct (queues q !! agent_id) as [old|] eqn:Hq.
  - rewrite Hq. repeat split; eauto. done.
  - simpl. rewrite !lookup_insert_eq. repeat split; eauto.
    intros r pending Hr. rewrite lookup_insert_ne; [done|]. congruence.
Qed.

(** X2: [subscribe] puts the subscriber in the list of the publisher at most
    once: a list without duplicates stays so, a second identical call changes
    nothing, the lists of other publishers are kept, and no mailbox is
    created for the subscriber. *)
Theorem subscribe_adds_at_most_once q (subscriber publisher : string) :
  subscriber ∈ subscribers_get (subscribe q subscriber publisher) publisher ∧
  (NoDup (subscribers_get q publisher) →
     NoDup (subscribers_get (subscribe q subscriber publisher) publisher)) ∧
  subscribe (subscribe q subscriber publisher) subscriber publisher =
    subscribe q subscriber publisher ∧
  (∀ p, p ≠ publisher →
     subscribers_get (subscribe q subscriber publisher) p =
       subscribers_get q p) ∧
  queues (subscribe q subscriber publisher) = queues q.
Proof.
  unfold subscribers_get, subscribe, defaultdict_getitem.
  destruct (subscribers q !! publisher) as [l|] eqn:Hl.
  - case_bool_decide as Hin; simpl.
    + rewrite Hl; simpl. rewrite bool_decide_eq_true_2 by done.
      repeat split; try done.
    + rewrite !lookup_insert_eq; simpl.
      rewrite bool_decide_eq_true_2
        by (apply elem_of_app; right; by apply list_elem_of_singleton).
      repeat split; try done.
      * apply elem_of_app; right. by apply list_elem_of_singleton.
      * intros Hnd. apply NoDup_app. split; [done|]. split.
        -- intros x Hx Hx'. apply list_elem_of_singleton in Hx'. by subst x.
        -- apply NoDup_singleton.
      * intros p Hp. by rewrite lookup_insert_ne.
  - rewrite bool_decide_eq_false_2 by apply not_elem_of_nil; simpl.
    rewrite insert_insert_eq, !lookup_insert_eq; simpl.
    rewrite bool_decide_eq_true_2 by apply list_elem_of_here.
    repeat split; try done.
    + apply list_elem_of_here.
    + intros _. apply NoDup_singleton.
    + intros p Hp. by rewrite lookup_insert_ne.
Qed.

(** X3: [publish] neither creates nor removes a mailbox, and the mailbox of
    an agent that is not among the receivers (the sender itself, unless it
    is its own receiver or subscriber) is left as it was. *)
Theorem publish_keeps_other_mailboxes q message :
  dom (queues (publish q message).1) = dom (queues q) ∧
  ∀ r, r ∉ publish_receivers q message →
       queues (publish q message).1 !! r = queues q !! r.
Proof.
  split.
  - apply set_eq. intros r. rewrite !elem_of_dom, lookup_publish.
    by rewrite fmap_is_Some.
  - intros r Hr. rewrite lookup_publish, occurrences_not_elem_of by done.
    destruct (queues q !! r); simpl; [|done]. by rewrite app_nil_r.
Qed.

(** X4: when the list of receivers has no duplicates, every registered
    receiver gets exactly one copy of the message, after the messages it
    already holds. *)
Theorem publish_one_copy_without_duplicates
    q message (r : string) (pending : list AsyncMessage) :
  NoDup (publish_receivers q message) →
  r ∈ publish_receivers q message →
  queues q !! r = Some pending →
  queues (publish q message).1 !! r = Some (pending ++ [message]).
Proof.
  intros Hnd Hr Hq. by rewrite lookup_publish, Hq, occurrences_NoDup.
Qed.

Lemma publish_one_copy_without_duplicates_witness :
  let m := {| id := "m1"; sender := "S"; receiver := "R"; content := "hello";
              message_type := "data"; metadata := None |} in
  let q := subscribe (register_agent (register_agent __init__ "R") "X")
             "X" "S" in
  queues (publish q m).1 !! "X" = Some ([] ++ [m]).
Proof.
  intros m q.
  apply (publish_one_copy_without_duplicates q m "X" []).
  - vm_compute. apply NoDup_cons. split; [|apply NoDup_singleton].
    intros Hx. apply list_elem_of_singleton in Hx. discriminate Hx.
  - vm_compute. apply list_elem_of_here.
  - reflexivity.
Defined.

(** With no stored list for the sender, a message to a registered receiver
    is put at the tail of its mailbox and nothing else changes. *)
Lemma publish_direct q message (pending : list AsyncMessage) :
  subscribers q !! sender message = None →
  receiver message ≠ "" →
  queues q !! receiver message = Some pending →
  (publish q message).1 = set_queue q (receiver message) (pending ++ [message]).
Proof.
  intros Hs Hr Hq. unfold publish, publish_tasks, publish_subscribers; simpl.
  rewrite Hs. unfold publish_receivers, subscribers_get.
  rewrite Hs, str_truthy_ne by done; simpl.
  rewrite filter_cons, decide_True by (by rewrite Hq); simpl.
  unfold set_queue, put. f_equal.
  apply map_eq. intros r. destruct (decide (receiver message = r)) as [<-|Hne].
  - by rewrite lookup_alter_eq, lookup_insert_eq, Hq.
  - by rewrite lookup_alter_ne, lookup_insert_ne.
Qed.

(** X5: publishing to a registered receiver with an empty mailbox, from a
    sender without subscribers, and then taking the next message of that
    receiver (with no timeout or a positive one) returns the message and
    brings the queue back to the state before the publish. *)
Theorem publish_get_message_round_trip
    (env : arrival) q message (timeout : option Q) :
  subscribers q !! sender message = None →
  receiver message ≠ "" →
  queues q !! receiver message = Some [] →
  match timeout with Some t => (0 < t)%Q | None => True end →
  (publish q message).2 = true ∧
  get_message env (publish q message).1 (receiver message) timeout =
    (q, Returns (Some message)).
Proof.
  intros Hs Hr Hq Ht. split; [done|].
  rewrite (publish_direct q message []) by done; simpl.
  unfold get_message; simpl. rewrite lookup_insert_eq.
  assert (set_queue (set_queue q (receiver message) [message])
            (receiver message) [] = q) as Hback
    by (by rewrite set_queue_set_queue, set_queue_id).
  destruct timeout as [t|].
  - rewrite timeout_truthy_pos by done. simpl. unfold wait_for_get.
    by rewrite Qle_bool_pos, Hback.
  - simpl. by rewrite Hback.
Qed.

Lemma publish_get_message_round_trip_witness :
  let m := {| id := "m1"; sender := "S"; receiver := "R"; content := "hello";
              message_type := "data"; metadata := None |} in
  let q := register_agent __init__ "R" in
  (publish q m).2 = true ∧
  get_message None (publish q m).1 (receiver m) (Some (1 # 2)%Q) =
    (q, Returns (Some m)).
Proof.
  intros m q.
  apply (publish_get_message_round_trip None q m (Some (1 # 2)%Q)).
  - reflexivity.
  - discriminate.
  - reflexivity.
  - reflexivity.
Defined.

Lemma get_all_messages_no_mailbox (env : arrival) q (agent_id : string)
    (fuel : nat) :
  queues q !! agent_id = None →
  get_all_messages (S fuel) env q agent_id =
    Some (register_agent q agent_id, Returns []).
Proof.
  intros Hq. unfold get_all_messages, register_agent; simpl.
  unfold defaultdict_getitem. by rewrite Hq.
Qed.

(** X6: for an agent without a mailbox, [get_message] returns [None] at
    once, whatever the timeout, and creates nothing, whereas
    [get_all_messages] returns the empty list and leaves the agent
    registered with an empty mailbox. *)
Theorem get_all_messages_registers_agent
    (env : arrival) q (agent_id : string) (timeout : option Q) (fuel : nat) :
  queues q !! agent_id = None →
  get_message env q agent_id timeout = (q, Returns None) ∧
  get_all_messages (S fuel) env q agent_id =
    Some (register_agent q agent_id, Returns []).
Proof.
  intros Hq. split; [|by apply get_all_messages_no_mailbox].
  unfold get_message. by rewrite Hq.
Qed.

Lemma get_all_messages_registers_agent_witness :
  get_message None __init__ "A" None = (__init__, Returns None) ∧
  get_all_messages 1 None __init__ "A" =
    Some (register_agent __init__ "A", Returns []).
Proof.
  apply (get_all_messages_registers_agent None __init__ "A" None 0).
  reflexivity.
Defined.

Lemma subscribers_stop q : subscribers (stop q) = subscribers q.
Proof. done. Qed.

Lemma get_all_messages_loop_stop fuel env q agent_id messages :
  get_all_messages_loop fuel env (stop q) agent_id messages =
    (λ r, (stop r.1, r.2)) <$> get_all_messages_loop fuel env q agent_id messages.
Proof.
  revert q messages. induction fuel as [|fuel IH]; intros q messages; [done|].
  simpl. unfold defaultdict_getitem.
  destruct (queues q !! agent_id) as [pending|] eqn:Hq; simpl; [|done].
  destruct pending as [|m rest]; [done|].
  unfold get_message; simpl. rewrite Hq; simpl.
  exact (IH (set_queue {| queues := queues q; subscribers := subscribers q;
                          _running := _running q |} agent_id rest)
            (messages ++ [m])).
Qed.

(** X7: [stop] only clears the flag [_running], which no method reads: on a
    stopped queue [publish], [get_message] and [get_all_messages] deliver
    and return exactly what they do on a running one. *)
Theorem stop_does_not_stop_delivery
    (env : arrival) q message (agent_id : string) (timeout : option Q)
    (fuel : nat) :
  _running (stop q) = false ∧
  publish (stop q) message = (stop (publish q message).1, true) ∧
  get_message env (stop q) agent_id timeout =
    (stop (get_message env q agent_id timeout).1,
     (get_message env q agent_id timeout).2) ∧
  get_all_messages fuel env (stop q) agent_id =
    (λ r, (stop r.1, r.2)) <$> get_all_messages fuel env q agent_id.
Proof.
  split; [done|]. split; [done|]. split.
  - unfold get_message; simpl.
    destruct (queues q !! agent_id) as [pending|]; [|done].
    destruct (timeout_truthy timeout).
    + by destruct (wait_for_get _ _ _) as [[??]|].
    + by destruct (queue_get _ _) as [[??]|].
  - apply get_all_messages_loop_stop.
Qed.

Lemma occurrences_replicate r (n : nat) : occurrences r (replicate n r) = n.
Proof.
  induction n as [|n IH]; [done|]. simpl.
  by rewrite occurrences_cons, bool_decide_eq_true_2, IH.
Qed.

(** X8: when the sender has a stored subscriber list, publishing the same
    message [n] times to a registered receiver appends the receiver [n]
    times to that list, and the receiver's mailbox grows by [k] copies at
    the [k]-th publish on top of one copy per earlier occurrence in the
    list: [n * occurrences + n * (n + 1) / 2] copies in all. *)
Theorem repeated_publish_accumulates
    q message (subs : list string) (pending : list AsyncMessage) (n : nat) :
  subscribers q !! sender message = Some subs →
  receiver message ≠ "" →
  queues q !! receiver message = Some pending →
  subscribers (Nat.iter n (λ q', (publish q' message).1) q) !! sender message =
    Some (subs ++ replicate n (receiver message)) ∧
  ∃ delivered : nat,
    queues (Nat.iter n (λ q', (publish q' message).1) q) !! receiver message =
      Some (pending ++ replicate delivered message) ∧
    (2 * delivered =
       2 * n * occurrences (receiver message) subs + n * (n + 1))%nat.
Proof.
  intros Hs Hr Hq. induction n as [|n [IHs (d & IHq & IHd)]].
  - simpl. rewrite app_nil_r. split; [done|]. exists 0%nat.
    by rewrite app_nil_r.
  - rewrite Nat.iter_succ. set (qn := Nat.iter n _ q) in *. split.
    + simpl. rewrite (publish_subscribers_stored qn message _ IHs Hr).
      rewrite lookup_insert_eq. f_equal. rewrite <- app_assoc. f_equal.
      change [receiver message] with (replicate 1 (receiver message)).
      rewrite <- replicate_add. by replace (n + 1)%nat with (S n) by lia.
    + exists (d + (occurrences (receiver message) subs + n + 1))%nat. split.
      * rewrite lookup_publish, IHq; simpl.
        rewrite publish_receivers_explicit by done.
        unfold subscribers_get. rewrite IHs; simpl.
        rewrite !occurrences_app, occurrences_replicate.
        rewrite (occurrences_cons _ _ []), bool_decide_eq_true_2 by done.
        rewrite <- app_assoc, <- replicate_add. do 3 f_equal.
      * lia.
Qed.

Lemma repeated_publish_accumulates_witness :
  let m := {| id := "m1"; sender := "S"; receiver := "R"; content := "hello";
              message_type := "data"; metadata := None |} in
  let q := subscribe (register_agent (register_agent __init__ "R") "X")
             "X" "S" in
  subscribers (Nat.iter 3 (λ q', (publish q' m).1) q) !! sender m =
    Some (["X"] ++ replicate 3 (receiver m)) ∧
  ∃ delivered : nat,
    queues (Nat.iter 3 (λ q', (publish q' m).1) q) !! receiver m =
      Some ([] ++ replicate delivered m) ∧
    (2 * delivered = 2 * 3 * occurrences (receiver m) ["X"] + 3 * (3 + 1))%nat.
Proof.
  intros m q.
  apply (repeated_publish_accumulates q m ["X"] [] 3).
  - reflexivity.
  - discriminate.
  - reflexivity.
Defined.

Lemma foldl_publish_direct q (r : string) (ms pending : list AsyncMessage) :
  r ≠ "" →
  queues q !! r = Some pending →
  Forall (λ m, receiver m = r ∧ subscribers q !! sender m = None) ms →
  foldl (λ q' m, (publish q' m).1) q ms = set_queue q r (pending ++ ms).
Proof.
  intros Hr. revert q pending.
  induction ms as [|m ms IH]; intros q pending Hq Hms; cbn [foldl].
  - by rewrite app_nil_r, set_queue_id.
  - apply Forall_cons in Hms as [[Hm Hs] Hms]. subst r.
    rewrite (publish_direct q m pending) by done.
    rewrite (IH _ (pending ++ [m])).
    + by rewrite set_queue_set_queue, <- app_assoc.
    + simpl. by rewrite lookup_insert_eq.
    + done.
Qed.

(** X9: messages published one after the other to the same registered
    receiver, by senders without subscribers, are queued behind the pending
    ones in publish order, and [get_all_messages] returns them all in that
    order, leaving the mailbox empty. *)
Theorem publish_then_get_all_messages_fifo
    (env : arrival) q (r : string) (pending ms : list AsyncMessage)
    (fuel : nat) :
  r ≠ "" →
  queues q !! r = Some pending →
  Forall (λ m, receiver m = r ∧ subscribers q !! sender m = None) ms →
  length pending + length ms < fuel →
  get_all_messages fuel env (foldl (λ q' m, (publish q' m).1) q ms) r =
    Some (set_queue q r [], Returns (pending ++ ms)).
Proof.
  intros Hr Hq Hms Hfuel.
  rewrite (foldl_publish_direct q r ms pending) by done.
  unfold get_all_messages.
  rewrite (get_all_messages_loop_drains env r (pending ++ ms)).
  - by rewrite set_queue_set_queue.
  - simpl. by rewrite lookup_insert_eq.
  - rewrite length_app. lia.
Qed.

Lemma publish_then_get_all_messages_fifo_witness :
  let m1 := {| id := "m1"; sender := "S"; receiver := "R"; content := "one";
               message_type := "data"; metadata := None |} in
  let m2 := {| id := "m2"; sender := "T"; receiver := "R"; content := "two";
               message_type := "data"; metadata := None |} in
  let q := register_agent __init__ "R" in
  get_all_messages 3 None (foldl (λ q' m, (publish q' m).1) q [m1; m2]) "R" =
    Some (set_queue q "R" [], Returns ([] ++ [m1; m2])).
Proof.
  intros m1 m2 q.
  apply (publish_then_get_all_messages_fifo None q "R" [] [m1; m2] 3).
  - discriminate.
  - reflexivity.
  - repeat constructor.
  - simpl. lia.
Defined.

Lemma get_message_keeps_mailboxes (env : arrival) q (agent_id r : string)
    (timeout : option Q) :
  is_Some (queues q !! r) →
  is_Some (queues (get_message env q agent_id timeout).1 !! r).
Proof.
  intros Hr. unfold get_message.
  destruct (queues q !! agent_id) as [pending|] eqn:Hq; [|done].
  assert (∀ rest, is_Some (queues (set_queue q agent_id rest) !! r)) as Hset.
  { intros rest. simpl. destruct (decide (agent_id = r)) as [->|Hne].
    - by rewrite lookup_insert_eq.
    - by rewrite lookup_insert_ne. }
  destruct (timeout_truthy timeout).
  - destruct (wait_for_get _ _ _) as [[??]|]; [apply Hset|done].
  - destruct (queue_get _ _) as [[??]|]; [apply Hset|done].
Qed.

Lemma get_all_messages_loop_keeps_mailboxes
    (fuel : nat) (env : arrival) q (agent_id r : string) messages q' res :
  get_all_messages_loop fuel env q agent_id messages = Some (q', res) →
  is_Some (queues q !! r) → is_Some (queues q' !! r).
Proof.
  revert q messages.
  induction fuel as [|fuel IH]; intros q messages; simpl; [done|].
  unfold defaultdict_getitem.
  destruct (queues q !! agent_id) as [pending|] eqn:Hq.
  - rewrite queue_eta. destruct pending as [|m rest]; [by intros [= <- _]|].
    pose proof (get_message_keeps_mailboxes env q agent_id r None) as Hget.
    destruct (get_message env q agent_id None) as [q2 [[message|]|]];
      simpl in Hget.
    + intros Hloop Hr. eapply IH; eauto.
    + intros Hloop Hr. eapply IH; eauto.
    + intros [= <- _]. done.
  - intros [= <- _] Hr. simpl.
    destruct (decide (agent_id = r)) as [->|Hne].
    + by rewrite lookup_insert_eq.
    + by rewrite lookup_insert_ne.
Qed.

(** X25: no method of the queue removes a mailbox: an agent that has one
    keeps it through any later calls of [register_agent], [subscribe],
    [publish], [get_message], [get_all_messages] and [stop]. *)
Theorem later_keeps_mailboxes q q' (agent_id : string) :
  later q q' →
  is_Some (queues q !! agent_id) →
  is_Some (queues q' !! agent_id).
Proof.
  intros Hlater Hr.
  induction Hlater as [|q' a _ IH|q' sub p _ IH|q' m _ IH|q' env a t _ IH
                       |q' fuel env a q'' res _ IH Hall|q' _ IH].
  - done.
  - unfold register_agent. destruct (queues q' !! a) eqn:Ha; [done|]. simpl.
    destruct (decide (a = agent_id)) as [->|Hne].
    + by rewrite lookup_insert_eq.
    + by rewrite lookup_insert_ne.
  - unfold subscribe, defaultdict_getitem.
    by destruct (subscribers q' !! p); destruct (bool_decide _).
  - rewrite lookup_publish. by apply fmap_is_Some.
  - by apply get_message_keeps_mailboxes.
  - by apply (get_all_messages_loop_keeps_mailboxes _ _ _ _ _ _ _ _ Hall).
  - done.
Qed.

Lemma later_keeps_mailboxes_witness :
  is_Some (queues (stop (subscribe (register_agent __init__ "A") "A" "S"))
             !! "A").
Proof.
  apply (later_keeps_mailboxes (register_agent __init__ "A")).
  - apply later_stop, later_subscribe, later_now.
  - vm_compute. eauto.
Defined.

End AsyncQueueCalls.

(** ** Synchronous communication *)

Section SyncCommunication.
Import Communication.

Implicit Types (c : AgentCommunication) (message : Message).

(** X10: [send_message] returns [True] exactly when the receiver is
    registered; it then puts the message at the tail of the receiver's queue
    and touches no other queue; for an unknown receiver nothing changes and
    no queue is created. *)
Theorem send_message_delivers_iff_registered c message :
  (send_message c message).2 =
    bool_decide (is_Some (message_queues c !! receiver message)) ∧
  dom (message_queues (send_message c message).1) = dom (message_queues c) ∧
  (message_queues c !! receiver message = None →
     send_message c message = (c, false)) ∧
  (∀ pending, message_queues c !! receiver message = Some pending →
     message_queues (send_message c message).1 !! receiver message =
       Some (pending ++ [message])) ∧
  (∀ r, r ≠ receiver message →
     message_queues (send_message c message).1 !! r = message_queues c !! r).
Proof.
  unfold send_message.
  destruct (message_queues c !! receiver message) as [pending|] eqn:Hq; simpl.
  - split; [done|]. split; [|split; [done|split]].
    + apply dom_insert_lookup_L. by rewrite Hq.
    + intros ? [= <-]. by rewrite lookup_insert_eq.
    + intros r Hr. by rewrite lookup_insert_ne.
  - done.
Qed.

Lemma foldl_send_message c (a : string) (ms pending : list Message) :
  message_queues c !! a = Some pending →
  Forall (λ m, receiver m = a) ms →
  foldl (λ c' m, (send_message c' m).1) c ms =
    {| message_queues := <[a := pending ++ ms]> (message_queues c) |}.
Proof.
  revert c pending.
  induction ms as [|m ms IH]; intros c pending Hq Hms; cbn [foldl].
  - rewrite app_nil_r, insert_id by done. by destruct c.
  - apply Forall_cons in Hms as [Hm Hms]. subst a.
    unfold send_message at 2. rewrite Hq. cbn [fst].
    rewrite (IH _ (pending ++ [m])).
    + simpl. by rewrite insert_insert_eq, <- app_assoc.
    + simpl. by rewrite lookup_insert_eq.
    + done.
Qed.

(** X11: messages sent one after the other to a registered agent are
    returned by [get_messages] behind the ones already queued, in sending
    order; the queue is then empty and a second [get_messages] returns the
    empty list. *)
Theorem send_then_get_messages_fifo
    c (agent_name : string) (pending ms : list Message) :
  message_queues c !! agent_name = Some pending →
  Forall (λ m, receiver m = agent_name) ms →
  get_messages (foldl (λ c' m, (send_message c' m).1) c ms) agent_name =
    ({| message_queues := <[agent_name := []]> (message_queues c) |},
     pending ++ ms) ∧
  get_messages
    {| message_queues := <[agent_name := []]> (message_queues c) |} agent_name =
    ({| message_queues := <[agent_name := []]> (message_queues c) |}, []).
Proof.
  intros Hq Hms. rewrite (foldl_send_message c agent_name ms pending) by done.
  unfold get_messages; simpl. rewrite !lookup_insert_eq.
  by rewrite !insert_insert_eq.
Qed.

Lemma send_then_get_messages_fifo_witness :
  let m1 := {| sender := "S"; receiver := "A"; content := "one";
               message_type := "data"; metadata := None |} in
  let m2 := {| sender := "T"; receiver := "A"; content := "two";
               message_type := "data"; metadata := None |} in
  let c := register_agent __init__ "A" in
  get_messages (foldl (λ c' m, (send_message c' m).1) c [m1; m2]) "A" =
    ({| message_queues := <[("A" : string) := []]> (message_queues c) |},
     [] ++ [m1; m2]) ∧
  get_messages
    {| message_queues := <[("A" : string) := []]> (message_queues c) |} "A" =
    ({| message_queues := <[("A" : string) := []]> (message_queues c) |}, []).
Proof.
  intros m1 m2 c.
  apply (send_then_get_messages_fifo c "A" [] [m1; m2]).
  - reflexivity.
  - repeat constructor.
Defined.

(** X12: [register_agent] of the synchronous path gives the agent a queue
    and keeps every queued message, also when the agent was registered
    before; [get_messages] on an agent that is not registered returns the
    empty list and does not register it. *)
Theorem sync_register_agent_keeps_pending c (agent_name : string) :
  is_Some (message_queues (register_agent c agent_name) !! agent_name) ∧
  (∀ r pending, message_queues c !! r = Some pending →
     message_queues (register_agent c agent_name) !! r = Some pending) ∧
  register_agent (register_agent c agent_name) agent_name =
    register_agent c agent_name ∧
  (message_queues c !! agent_name = None →
     get_messages c agent_name = (c, [])).
Proof.
  unfold register_agent, get_messages.
  destruct (message_queues c !! agent_name) as [old|] eqn:Hq.
  - rewrite Hq. repeat split; eauto. done.
  - simpl. rewrite !lookup_insert_eq. repeat split; eauto.
    intros r pending Hr. rewrite lookup_insert_ne; [done|]. congruence.
Qed.

End SyncCommunication.

(** ** Flow coordinator: sequences of calls *)

Section FlowCoordinatorCalls.
Import Coordinator FlowTrace.

Implicit Types (fc : FlowCoordinator) (c : call) (cs : list call).

Lemma run_cons fc c cs : run fc (c :: cs) = run (step fc c) cs.
Proof. done. Qed.

Lemma step_records fc c (flow_id : string) (fl : Flow) :
  restarts flow_id c = false →
  active_flows fc !! flow_id = Some fl →
  ∃ fl', active_flows (step fc c) !! flow_id = Some fl' ∧
         steps_completed fl' = steps_completed fl ++ steps_recorded flow_id [c] ∧
         status fl' = default (status fl) (last (statuses_recorded flow_id [c])) ∧
         document fl' = document fl ∧
         current_step fl' = current_step fl.
Proof.
  intros Hc Hfl. destruct c as [f doc|f s st|f]; simpl in *.
  - apply bool_decide_eq_false in Hc. exists fl.
    rewrite lookup_insert_ne by done. by rewrite app_nil_r.
  - unfold update_flow. case_bool_decide as Hf.
    + subst f. rewrite Hfl; simpl. rewrite lookup_insert_eq. by eexists.
    + exists fl. rewrite app_nil_r.
      destruct (active_flows fc !! f); simpl;
        by rewrite ?lookup_insert_ne by done.
  - exists fl. by rewrite app_nil_r.
Qed.

Lemma steps_recorded_cons (flow_id : string) c cs :
  steps_recorded flow_id (c :: cs) =
    steps_recorded flow_id [c] ++ steps_recorded flow_id cs.
Proof.
  unfold steps_recorded; simpl.
  by destruct c as [| f ? ? |]; simpl; try case_bool_decide.
Qed.

Lemma statuses_recorded_cons (flow_id : string) c cs :
  statuses_recorded flow_id (c :: cs) =
    statuses_recorded flow_id [c] ++ statuses_recorded flow_id cs.
Proof.
  unfold statuses_recorded; simpl.
  by destruct c as [| f ? ? |]; simpl; try case_bool_decide.
Qed.

(** X13: for an existing flow and any sequence of coordinator calls without a
    [start_flow] on its id, the flow ends with its earlier steps followed by
    the steps of the [update_flow] calls made on it, in call order, and with
    the status of the last of these calls; its document and its
    [current_step] are the ones it had. *)
Theorem run_records_updates
    fc cs (flow_id : string) (fl : Flow) :
  get_flow_status fc flow_id = Some fl →
  Forall (λ c, restarts flow_id c = false) cs →
  ∃ fl', get_flow_status (run fc cs) flow_id = Some fl' ∧
         steps_completed fl' = steps_completed fl ++ steps_recorded flow_id cs ∧
         status fl' = default (status fl) (last (statuses_recorded flow_id cs)) ∧
         document fl' = document fl ∧
         current_step fl' = current_step fl.
Proof.
  unfold get_flow_status. intros Hfl Hcs. revert fc fl Hfl.
  induction Hcs as [|c cs Hc _ IH]; intros fc fl Hfl.
  - exists fl. by rewrite app_nil_r.
  - rewrite run_cons.
    destruct (step_records fc c flow_id fl Hc Hfl)
      as (fl1 & Hfl1 & Hsteps1 & Hstatus1 & Hdoc1 & Hcur1).
    destruct (IH _ _ Hfl1) as (fl2 & Hfl2 & Hsteps2 & Hstatus2 & Hdoc2 & Hcur2).
    exists fl2. split; [done|].
    rewrite steps_recorded_cons, statuses_recorded_cons.
    rewrite Hsteps2, Hsteps1, Hstatus2, Hstatus1, Hdoc2, Hdoc1, Hcur2, Hcur1.
    rewrite app_assoc. repeat split; try done.
    rewrite last_app.
    destruct (last (statuses_recorded flow_id cs)); [done|].
    by destruct (last (statuses_recorded flow_id [c])).
Qed.

Lemma run_records_updates_witness :
  let fc := start_flow __init__ "f1" "doc.pdf" in
  let cs := [UpdateFlow "f1" "parsed" "parsing"; StartFlow "f2" "b.pdf";
             UpdateFlow "f2" "parsed" "parsing";
             UpdateFlow "f1" "chunked" "chunking"; GetFlowStatus "f2"] in
  let fl := {| status := "started"; document := "doc.pdf";
               steps_completed := []; current_step := "parsing" |} in
  ∃ fl', get_flow_status (run fc cs) "f1" = Some fl' ∧
         steps_completed fl' = steps_completed fl ++ steps_recorded "f1" cs ∧
         status fl' = default (status fl) (last (statuses_recorded "f1" cs)) ∧
         document fl' = document fl ∧
         current_step fl' = current_step fl.
Proof.
  intros fc cs fl.
  apply (run_records_updates fc cs "f1" fl).
  - reflexivity.
  - repeat constructor.
Defined.

(** X14: starting from a new coordinator, whatever calls are made, every
    flow has [current_step = "parsing"]: [update_flow] never advances it. *)
Theorem current_step_never_advances cs (flow_id : string) (fl : Flow) :
  get_flow_status (run __init__ cs) flow_id = Some fl →
  current_step fl = "parsing".
Proof.
  unfold get_flow_status.
  assert (∀ fc,
    (∀ f fl', active_flows fc !! f = Some fl' → current_step fl' = "parsing") →
    ∀ f fl', active_flows (run fc cs) !! f = Some fl' →
             current_step fl' = "parsing") as Hinv.
  { induction cs as [|c cs IH]; intros fc Hfc; [done|].
    rewrite run_cons. apply IH. intros f fl'.
    destruct c as [f' doc|f' s st|f']; simpl.
    - destruct (decide (f' = f)) as [->|Hne].
      + rewrite lookup_insert_eq. by intros [= <-].
      + rewrite lookup_insert_ne by done. apply Hfc.
    - unfold update_flow.
      destruct (active_flows fc !! f') as [fl0|] eqn:Hfl0; [|apply Hfc].
      simpl. destruct (decide (f' = f)) as [->|Hne].
      + rewrite lookup_insert_eq. intros [= <-]. simpl. by eapply Hfc.
      + rewrite lookup_insert_ne by done. apply Hfc.
    - apply Hfc. }
  apply Hinv. intros f fl'. unfold __init__; simpl. by rewrite lookup_empty.
Qed.

Lemma current_step_never_advances_witness :
  current_step {| status := "stored"; document := "doc.pdf";
                  steps_completed := ["parsing"; "storing"];
                  current_step := "parsing" |} = "parsing".
Proof.
  apply (current_step_never_advances
           [StartFlow "f1" "doc.pdf"; UpdateFlow "f1" "parsed" "parsing";
            UpdateFlow "f1" "stored" "storing"] "f1").
  reflexivity.
Defined.

(** X15: no coordinator call forgets a flow or touches the
    [AgentCommunication] object of the coordinator: the known flow ids only
    grow and [comm] stays as it was. *)
Theorem run_keeps_flows_and_comm fc cs :
  dom (active_flows fc) ⊆ dom (active_flows (run fc cs)) ∧
  comm (run fc cs) = comm fc.
Proof.
  revert fc. induction cs as [|c cs IH]; intros fc; [done|].
  rewrite run_cons. destruct (IH (step fc c)) as [Hdom Hcomm].
  assert (dom (active_flows fc) ⊆ dom (active_flows (step fc c)) ∧
          comm (step fc c) = comm fc) as [Hdom1 Hcomm1].
  { destruct c as [f doc|f s st|f]; simpl.
    - split; [|done]. rewrite dom_insert_L. apply union_subseteq_r.
    - unfold update_flow. destruct (active_flows fc !! f); simpl; [|done].
      split; [|done]. rewrite dom_insert_L. apply union_subseteq_r.
    - done. }
  split; [by etrans|congruence].
Qed.

(** X16: calls about other flow ids leave a flow exactly as it is, and an
    unknown id stays unknown. *)
Theorem calls_on_other_flows_leave_flow fc cs (flow_id : string) :
  Forall (λ c, call_flow_id c ≠ flow_id) cs →
  get_flow_status (run fc cs) flow_id = get_flow_status fc flow_id.
Proof.
  unfold get_flow_status. intros Hcs. revert fc.
  induction Hcs as [|c cs Hc _ IH]; intros fc; [done|].
  rewrite run_cons, IH.
  destruct c as [f doc|f s st|f]; simpl in *.
  - by rewrite lookup_insert_ne.
  - unfold update_flow. destruct (active_flows fc !! f); simpl; [|done].
    by rewrite lookup_insert_ne.
  - done.
Qed.

Lemma calls_on_other_flows_leave_flow_witness :
  let fc := start_flow __init__ "f1" "doc.pdf" in
  let cs := [StartFlow "f2" "b.pdf"; UpdateFlow "f2" "parsed" "parsing";
             UpdateFlow "f3" "parsed" "parsing"] in
  get_flow_status (run fc cs) "f1" = get_flow_status fc "f1".
Proof.
  intros fc cs.
  apply (calls_on_other_flows_leave_flow fc cs "f1").
  repeat constructor; discriminate.
Defined.

End FlowCoordinatorCalls.

(** ** Message broker *)

Section BrokerCalls.
Import Broker.

Implicit Types (b : MessageBroker) (c : call) (cs : list call).

Lemma broker_run_cons b c cs : run b (c :: cs) = run (step b c) cs.
Proof. done. Qed.

(** The list stored by [Queue.subscribe] for each publisher. *)
Lemma subscribers_get_subscribe_eq
    (q : Queue.AsyncMessageQueue) (subscriber publisher p : string) :
  Queue.subscribers_get (Queue.subscribe q subscriber publisher) p =
    if bool_decide (p = publisher) then
      if bool_decide (subscriber ∈ Queue.subscribers_get q publisher)
      then Queue.subscribers_get q publisher
      else Queue.subscribers_get q publisher ++ [subscriber]
    else Queue.subscribers_get q p.
Proof.
  unfold Queue.subscribers_get, Queue.subscribe, Queue.defaultdict_getitem.
  destruct (Queue.subscribers q !! publisher) as [l|] eqn:Hl; simpl.
  - destruct (bool_decide (subscriber ∈ l)); simpl;
      case_bool_decide as Hp; try subst p;
      by rewrite ?Hl, ?lookup_insert_eq, ?lookup_insert_ne by done.
  - rewrite insert_insert_eq.
    case_bool_decide as Hp; [subst p|].
    + by rewrite lookup_insert_eq.
    + by rewrite lookup_insert_ne.
Qed.

Lemma subscriptions_get_subscribe b (subscriber publisher p : string) :
  subscriptions_get (subscribe b subscriber publisher) p =
    if bool_decide (p = publisher)
    then subscriptions_get b publisher ∪ {[subscriber]}
    else subscriptions_get b p.
Proof.
  unfold subscriptions_get, subscribe; simpl.
  destruct (subscriptions b !! publisher) as [old|] eqn:Hold; simpl.
  - rewrite Hold; simpl. case_bool_decide as Hp; [subst p|].
    + by rewrite lookup_insert_eq.
    + by rewrite lookup_insert_ne.
  - rewrite lookup_insert_eq, insert_insert_eq; simpl.
    case_bool_decide as Hp; [subst p|].
    + by rewrite lookup_insert_eq.
    + by rewrite lookup_insert_ne.
Qed.

(** X17: in every state of a broker, each subscriber recorded in the
    broker's own table for a publisher is in the list that the queue uses to
    deliver that publisher's messages. *)
Theorem broker_subscriptions_in_queue cs (publisher subscriber : string) :
  subscriber ∈ subscriptions_get (run __init__ cs) publisher →
  subscriber ∈ Queue.subscribers_get (queue (run __init__ cs)) publisher.
Proof.
  assert (∀ b,
    (∀ p s, s ∈ subscriptions_get b p → s ∈ Queue.subscribers_get (queue b) p) →
    ∀ p s, s ∈ subscriptions_get (run b cs) p →
           s ∈ Queue.subscribers_get (queue (run b cs)) p) as Hinv.
  { induction cs as [|c cs IH]; intros b Hb; [done|].
    rewrite broker_run_cons. apply IH. intros p s.
    destruct c as [a|sub pub|m|]; simpl.
    - unfold Queue.subscribers_get, Queue.register_agent.
      destruct (Queue.queues (queue b) !! a); apply Hb.
    - rewrite subscriptions_get_subscribe, subscribers_get_subscribe_eq.
      case_bool_decide as Hp; [subst p|apply Hb].
      intros [Hs|Hs%elem_of_singleton]%elem_of_union.
      + apply Hb in Hs. case_bool_decide; [done|].
        apply elem_of_app. by left.
      + subst s. case_bool_decide; [done|].
        apply elem_of_app. right. by apply list_elem_of_singleton.
    - unfold publish; simpl. intros Hs. apply Hb in Hs.
      exact (subscribers_get_publish (queue b) m p s Hs).
    - apply Hb. }
  apply Hinv. intros p s. unfold subscriptions_get, __init__; simpl.
  rewrite lookup_empty; simpl. by intros ?%elem_of_empty.
Qed.

Lemma broker_subscriptions_in_queue_witness :
  "X" ∈ Queue.subscribers_get
          (queue (run __init__ [RegisterAgent "X"; Subscribe "X" "S"; Stop]))
          "S".
Proof.
  apply (broker_subscriptions_in_queue
           [RegisterAgent "X"; Subscribe "X" "S"; Stop] "S" "X").
  vm_compute. set_solver.
Defined.

(** X18: as long as nothing is published, the broker's table and the
    queue's table agree: for every publisher the queue's list has no
    duplicates and its elements are exactly the broker's set. *)
Theorem broker_tables_agree_without_publish cs (publisher : string) :
  Forall (λ c, is_publish c = false) cs →
  NoDup (Queue.subscribers_get (queue (run __init__ cs)) publisher) ∧
  subscriptions_get (run __init__ cs) publisher =
    list_to_set (Queue.subscribers_get (queue (run __init__ cs)) publisher).
Proof.
  intros Hcs.
  assert (∀ b,
    (∀ p, NoDup (Queue.subscribers_get (queue b) p) ∧
          subscriptions_get b p =
            list_to_set (Queue.subscribers_get (queue b) p)) →
    ∀ p, NoDup (Queue.subscribers_get (queue (run b cs)) p) ∧
         subscriptions_get (run b cs) p =
           list_to_set (Queue.subscribers_get (queue (run b cs)) p)) as Hinv.
  { induction Hcs as [|c cs Hc _ IH]; intros b Hb; [done|].
    rewrite broker_run_cons. apply IH. intros p.
    destruct c as [a|sub pub|m|]; simpl in *; [| |done|].
    - unfold Queue.subscribers_get, Queue.register_agent.
      destruct (Queue.queues (queue b) !! a); apply Hb.
    - rewrite subscriptions_get_subscribe, subscribers_get_subscribe_eq.
      case_bool_decide as Hp; [subst p|apply Hb].
      destruct (Hb pub) as [Hnd Heq]. case_bool_decide as Hin.
      + split; [done|]. rewrite Heq.
        apply set_eq. intros x.
        rewrite elem_of_union, elem_of_singleton, !elem_of_list_to_set.
        split; [intros [?| ->]; done|by left].
      + split.
        * apply NoDup_app. split; [done|]. split; [|apply NoDup_singleton].
          intros x Hx Hx'. apply list_elem_of_singleton in Hx'. by subst x.
        * rewrite Heq, list_to_set_app_L; simpl. by rewrite union_empty_r_L.
    - apply Hb. }
  apply Hinv. intros p. unfold subscriptions_get, Queue.subscribers_get, __init__.
  simpl. rewrite !lookup_empty; simpl. split; [apply NoDup_nil_2|done].
Qed.

Lemma broker_tables_agree_without_publish_witness :
  let cs := [RegisterAgent "X"; Subscribe "X" "S"; Subscribe "Y" "S";
             Subscribe "X" "S"] in
  NoDup (Queue.subscribers_get (queue (run __init__ cs)) "S") ∧
  subscriptions_get (run __init__ cs) "S" =
    list_to_set (Queue.subscribers_get (queue (run __init__ cs)) "S").
Proof.
  intros cs.
  apply (broker_tables_agree_without_publish cs "S").
  repeat constructor.
Defined.

Lemma step_stop b c : step (stop b) c = stop (step b c).
Proof.
  destruct c as [a|sub pub|m|]; simpl; try done.
  - unfold register_agent, stop, Queue.register_agent; simpl.
    by destruct (Queue.queues (queue b) !! a).
  - unfold subscribe, stop, Queue.subscribe, Queue.defaultdict_getitem; simpl.
    destruct (Queue.subscribers (queue b) !! pub) as [l|]; simpl;
      by repeat case_bool_decide.
Qed.

(** X19: the broker's [stop] clears its own flag and the queue's flag and
    nothing else, and no later call looks at them: whatever calls follow,
    the state is the one they would have produced, stopped. *)
Theorem broker_stop_does_not_reject_calls b cs :
  _running (stop b) = false ∧
  Queue._running (queue (stop b)) = false ∧
  run (stop b) cs = stop (run b cs).
Proof.
  split; [done|]. split; [done|].
  revert b. induction cs as [|c cs IH]; intros b; [done|].
  by rewrite !broker_run_cons, step_stop, IH.
Qed.

End BrokerCalls.

(** ** Agents on a shared queue *)

Section Agents.
Import BaseAgent.

Implicit Types (a b : RetrievIOAgent) (q : Queue.AsyncMessageQueue).

(** X20: a message sent to an agent that has no mailbox (it was not
    registered and has not fetched its messages yet) is lost although
    [send_message] returns [True]: the receiver's next [get_messages]
    returns the empty list. *)
Theorem message_to_agent_without_mailbox_is_lost
    a b q (uuid content' message_type' : string)
    (metadata' : option (gmap string string))
    (env : Queue.arrival) (timeout : option Q) (fuel : nat) :
  Queue.queues q !! name b = None →
  (send_message a q uuid (name b) content' message_type' metadata').2 = true ∧
  get_messages b (S fuel) env
    (send_message a q uuid (name b) content' message_type' metadata').1
    timeout =
    Some (Queue.register_agent
            (send_message a q uuid (name b) content' message_type'
               metadata').1 (name b),
          Queue.Returns []).
Proof.
  intros Hq. split; [done|].
  unfold get_messages, send_message.
  apply get_all_messages_no_mailbox. by rewrite lookup_publish, Hq.
Qed.

Lemma message_to_agent_without_mailbox_is_lost_witness :
  let a := {| name := "parser"; role := "document_parser" |} in
  let b := {| name := "store"; role := "vector_store" |} in
  let q := Queue.__init__ in
  (send_message a q "u1" (name b) "hello" "data" None).2 = true ∧
  get_messages b 1 None (send_message a q "u1" (name b) "hello" "data" None).1
    None =
    Some (Queue.register_agent
            (send_message a q "u1" (name b) "hello" "data" None).1 (name b),
          Queue.Returns []).
Proof.
  intros a b q.
  apply (message_to_agent_without_mailbox_is_lost
           a b q "u1" "hello" "data" None None None 0).
  reflexivity.
Defined.

(** X21: once the receiving agent has called [get_messages], which leaves
    it with a mailbox, a message sent to it by an agent without subscribers
    is delivered: the receiver's next [get_messages] returns exactly that
    message. *)
Theorem message_after_first_poll_is_delivered
    a b q (uuid content' message_type' : string)
    (metadata' : option (gmap string string))
    (env : Queue.arrival) (timeout : option Q) (fuel : nat) :
  Queue.queues q !! name b = None →
  name b ≠ "" →
  Queue.subscribers q !! name a = None →
  ∃ q1,
    get_messages b (S fuel) env q timeout = Some (q1, Queue.Returns []) ∧
    get_messages b (S (S fuel)) env
      (send_message a q1 uuid (name b) content' message_type' metadata').1
      timeout =
      Some (q1,
            Queue.Returns
              [ {| Queue.id := uuid; Queue.sender := name a;
                   Queue.receiver := name b; Queue.content := content';
                   Queue.message_type := message_type';
                   Queue.metadata := metadata' |} ]).
Proof.
  intros Hq Hb Hs. exists (Queue.register_agent q (name b)). split.
  - by apply get_all_messages_no_mailbox.
  - unfold get_messages, send_message.
    set (m := {| Queue.id := uuid; Queue.sender := name a;
                 Queue.receiver := name b; Queue.content := content';
                 Queue.message_type := message_type';
                 Queue.metadata := metadata' |}).
    set (q1 := Queue.register_agent q (name b)).
    assert (Queue.queues q1 !! name b = Some []) as Hq1.
    { unfold q1, Queue.register_agent. rewrite Hq; simpl.
      by rewrite lookup_insert_eq. }
    assert (Queue.subscribers q1 !! name a = None) as Hs1.
    { unfold q1, Queue.register_agent. by rewrite Hq. }
    rewrite (publish_direct q1 m []) by done. simpl.
    unfold Queue.get_all_messages.
    rewrite (get_all_messages_loop_drains env (name b) [m]).
    + by rewrite set_queue_set_queue, set_queue_id.
    + simpl. by rewrite lookup_insert_eq.
    + simpl. lia.
Qed.

Lemma message_after_first_poll_is_delivered_witness :
  let a := {| name := "parser"; role := "document_parser" |} in
  let b := {| name := "store"; role := "vector_store" |} in
  let q := Queue.__init__ in
  ∃ q1,
    get_messages b 1 None q None = Some (q1, Queue.Returns []) ∧
    get_messages b 2 None
      (send_message a q1 "u1" (name b) "hello" "data" None).1 None =
      Some (q1,
            Queue.Returns
              [ {| Queue.id := "u1"; Queue.sender := name a;
                   Queue.receiver := name b; Queue.content := "hello";
                   Queue.message_type := "data";
                   Queue.metadata := None |} ]).
Proof.
  intros a b q.
  apply (message_after_first_poll_is_delivered
           a b q "u1" "hello" "data" None None None 0).
  - reflexivity.
  - discriminate.
  - reflexivity.
Defined.

End Agents.

(** ** Text chunker *)

Section Chunker.
Import TextChunker.

Implicit Types (s : list Ascii.ascii) (c : Ascii.ascii).
Implicit Types (md : option (gmap string string)) (chunks : list TextChunk).

Local Open Scope Z_scope.

Lemma rfind_down_found c s (lo n : nat) :
  rfind_down c s lo n = -1 ∨
  ((lo ≤ Z.to_nat (rfind_down c s lo n) < lo + n)%nat ∧
   0 ≤ rfind_down c s lo n ∧
   s !! Z.to_nat (rfind_down c s lo n) = Some c).
Proof.
  induction n as [|n IH]; simpl; [by left|].
  destruct (s !! (lo + n)%nat) as [c'|] eqn:Hc'.
  - case_bool_decide as Hc.
    + subst c'. right. rewrite Nat2Z.id. split; [lia|]. split; [lia|done].
    + destruct IH as [IH|IH]; [by left|right]. split; [lia|]. by destruct IH as (_ & ? & ?).
  - destruct IH as [IH|IH]; [by left|right]. split; [lia|]. by destruct IH as (_ & ? & ?).
Qed.

Lemma rfind_down_none c s (lo n : nat) :
  (∀ i : nat, (lo ≤ i < lo + n)%nat → s !! i ≠ Some c) →
  rfind_down c s lo n = -1.
Proof.
  induction n as [|n IH]; intros Hs; simpl; [done|].
  destruct (s !! (lo + n)%nat) as [c'|] eqn:Hc'.
  - rewrite bool_decide_eq_false_2.
    + apply IH. intros i Hi. apply Hs. lia.
    + intros ->. by apply (Hs (lo + n)%nat); [lia|].
  - apply IH. intros i Hi. apply Hs. lia.
Qed.

(** The end chosen for a chunk, for a start the loop can reach. *)
Lemma chunk_end_bounds (chunk_size overlap : Z) s (start : Z) :
  0 ≤ overlap ≤ chunk_size →
  - overlap ≤ start →
  0 ≤ chunk_end chunk_size s start ≤ start + chunk_size ∧
  (chunk_end chunk_size s start < Z.of_nat (length s) →
     chunk_end chunk_size s start = 0 ∨
     s !! Z.to_nat (chunk_end chunk_size s start - 1) = Some " "%char).
Proof.
  intros Hov Hstart. unfold chunk_end.
  destruct (Z.ltb_spec (start + chunk_size) (Z.of_nat (length s))) as [Hlt|Hge];
    [|split; lia].
  unfold rfind.
  rewrite (proj2 (Z.ltb_ge (Z.of_nat (length s)) (start + chunk_size))) by lia.
  rewrite (proj2 (Z.ltb_ge (start + chunk_size) 0)) by lia.
  set (lo := if start <? 0 then _ else _).
  assert (0 ≤ lo) as Hlo.
  { unfold lo. destruct (Z.ltb_spec start 0); lia. }
  destruct (rfind_down_found " "%char s (Z.to_nat lo)
              (Z.to_nat (start + chunk_size - lo))) as [->|(Hr & Hr0 & Hs)].
  - split; [lia|]. by left.
  - split; [lia|]. intros _. right.
    by replace (rfind_down _ _ _ _ + 1 - 1) with (rfind_down " "%char s
      (Z.to_nat lo) (Z.to_nat (start + chunk_size - lo))) by lia.
Qed.

Lemma length_slice s (start stop : Z) :
  Z.of_nat (length (slice s start stop)) ≤
    Z.max 0 (slice_index (Z.of_nat (length s)) stop -
             slice_index (Z.of_nat (length s)) start).
Proof. unfold slice. rewrite length_take. lia. Qed.

Lemma chunk_text_loop_Forall (P : TextChunk → Prop)
    (chunk_size overlap : Z) s md :
  0 ≤ overlap ≤ chunk_size →
  (∀ start, - overlap ≤ start < Z.of_nat (length s) →
     P {| text := slice s start (chunk_end chunk_size s start);
          start_idx := start;
          end_idx := chunk_end chunk_size s start;
          metadata := default ∅ md |}) →
  ∀ (fuel : nat) (start : Z) chunks res,
    - overlap ≤ start →
    Forall P chunks →
    chunk_text_loop fuel chunk_size overlap s md start chunks = Some res →
    Forall P res.
Proof.
  intros Hov HP. induction fuel as [|fuel IH]; intros start chunks res Hstart Hacc;
    simpl; [done|].
  destruct (Z.ltb_spec start (Z.of_nat (length s))) as [Hlt|Hge].
  - apply IH.
    + pose proof (chunk_end_bounds chunk_size overlap s start Hov Hstart). lia.
    + apply Forall_app. split; [done|]. apply Forall_singleton. apply HP. lia.
  - by intros [= <-].
Qed.

(** X22: with [0 <= overlap <= chunk_size], every chunk returned by the
    loop holds the characters of the text between its [start_idx] and its
    [end_idx], has at most [chunk_size] characters, and, when it stops
    before the end of the text, is cut right after a space or is cut at
    index 0. *)
Theorem chunks_are_bounded_and_cut_at_spaces
    (fuel : nat) (chunk_size overlap : Z) s md chunks (chunk : TextChunk) :
  0 ≤ overlap ≤ chunk_size →
  chunk_text_chunks fuel chunk_size overlap s md = Some chunks →
  chunk ∈ chunks →
  text chunk = slice s (start_idx chunk) (end_idx chunk) ∧
  Z.of_nat (length (text chunk)) ≤ chunk_size ∧
  start_idx chunk < Z.of_nat (length s) ∧
  (end_idx chunk < Z.of_nat (length s) →
     end_idx chunk = 0 ∨
     s !! Z.to_nat (end_idx chunk - 1) = Some " "%char).
Proof.
  intros Hov Hres Hin. unfold chunk_text_chunks in Hres.
  set (P := λ ch : TextChunk,
         text ch = slice s (start_idx ch) (end_idx ch) ∧
         Z.of_nat (length (text ch)) ≤ chunk_size ∧
         start_idx ch < Z.of_nat (length s) ∧
         (end_idx ch < Z.of_nat (length s) →
            end_idx ch = 0 ∨
            s !! Z.to_nat (end_idx ch - 1) = Some " "%char)).
  assert (Forall P chunks) as HP.
  { apply (chunk_text_loop_Forall P chunk_size overlap s md Hov)
      with (fuel := fuel) (start := 0) (chunks := []);
      [|lia|apply Forall_nil_2|exact Hres].
    intros start Hstart. unfold P; simpl.
    destruct (chunk_end_bounds chunk_size overlap s start Hov) as [Hend Hcut];
      [lia|].
    split; [done|]. split; [|split; [lia|done]].
    etrans; [apply length_slice|]. unfold slice_index.
    destruct (Z.ltb_spec (chunk_end chunk_size s start) 0),
             (Z.ltb_spec start 0); lia. }
  rewrite Forall_forall in HP. exact (HP chunk Hin).
Qed.

Lemma chunks_are_bounded_and_cut_at_spaces_witness :
  let s := String.list_ascii_of_string "ab cd ef gh" in
  let chunk := {| text := String.list_ascii_of_string " cd "; start_idx := 2;
                  end_idx := 6; metadata := ∅ |} in
  text chunk = slice s (start_idx chunk) (end_idx chunk) ∧
  Z.of_nat (length (text chunk)) ≤ 5 ∧
  start_idx chunk < Z.of_nat (length s) ∧
  (end_idx chunk < Z.of_nat (length s) →
     end_idx chunk = 0 ∨
     s !! Z.to_nat (end_idx chunk - 1) = Some " "%char).
Proof.
  intros s chunk.
  apply (chunks_are_bounded_and_cut_at_spaces 10 5 1 s None
           [ {| text := String.list_ascii_of_string "ab "; start_idx := 0;
                end_idx := 3; metadata := ∅ |};
             chunk;
             {| text := String.list_ascii_of_string " ef "; start_idx := 5;
                end_idx := 9; metadata := ∅ |};
             {| text := String.list_ascii_of_string " gh"; start_idx := 8;
                end_idx := 13; metadata := ∅ |} ] chunk).
  - lia.
  - vm_compute. reflexivity.
  - apply list_elem_of_further, list_elem_of_here.
Defined.

Lemma slice_to_end s (start stop : Z) :
  0 ≤ start ≤ Z.of_nat (length s) →
  Z.of_nat (length s) ≤ stop →
  slice s start stop = drop (Z.to_nat start) s.
Proof.
  intros Hstart Hstop. unfold slice, slice_index.
  rewrite (proj2 (Z.ltb_ge start 0)), (proj2 (Z.ltb_ge stop 0)) by lia.
  rewrite (Z.min_l start), (Z.min_r stop) by lia.
  apply take_ge. rewrite length_drop. lia.
Qed.

Lemma chunk_text_loop_short (chunk_size overlap : Z) s md :
  0 ≤ overlap < chunk_size →
  Z.of_nat (length s) ≤ chunk_size →
  ∀ (n fuel : nat) (start : Z) chunks,
    0 ≤ start →
    (n < fuel)%nat →
    Z.of_nat (length s) ≤ start + Z.of_nat n * (chunk_size - overlap) →
    (∀ n' : nat, n = S n' →
       start + Z.of_nat n' * (chunk_size - overlap) < Z.of_nat (length s)) →
    chunk_text_loop fuel chunk_size overlap s md start chunks =
      Some (chunks ++
            ((λ k : nat,
                {| text :=
                     drop (Z.to_nat (start + Z.of_nat k * (chunk_size - overlap))) s;
                   start_idx := start + Z.of_nat k * (chunk_size - overlap);
                   end_idx :=
                     start + Z.of_nat k * (chunk_size - overlap) + chunk_size;
                   metadata := default ∅ md |}) <$> seq 0 n)).
Proof.
  intros Hov Hlen. induction n as [|n IH];
    intros fuel start chunks Hstart Hfuel Hcover Hlast;
    (destruct fuel as [|fuel]; [lia|]); simpl.
  - rewrite (proj2 (Z.ltb_ge start (Z.of_nat (length s)))) by lia.
    by rewrite app_nil_r.
  - specialize (Hlast n eq_refl).
    assert (start < Z.of_nat (length s)) as Hlt by nia.
    rewrite (proj2 (Z.ltb_lt start (Z.of_nat (length s)))) by done.
    assert (chunk_end chunk_size s start = start + chunk_size) as ->.
    { unfold chunk_end.
      by rewrite (proj2 (Z.ltb_ge (start + chunk_size) (Z.of_nat (length s))))
        by lia. }
    rewrite slice_to_end by lia.
    rewrite IH; [|lia|lia|nia|intros n' ->; nia].
    rewrite <- app_assoc. do 2 f_equal. simpl. f_equal.
    + f_equal; [f_equal; lia|lia|lia].
    + rewrite <- fmap_S_seq, <- list_fmap_compose.
      apply list_fmap_ext. intros _ k _. simpl.
      f_equal; [f_equal; nia|nia|nia].
Qed.

(** X23: with [0 <= overlap < chunk_size], a text of at most [chunk_size]
    characters is never cut: the loop ends and returns one chunk per
    multiple of [chunk_size - overlap] below the length of the text, each
    holding the text from that index to its end, with an [end_idx] of that
    index plus [chunk_size] (which lies beyond the text).  The first chunk
    is the whole text; the empty text gives no chunk. *)
Theorem short_text_chunks
    (fuel : nat) (chunk_size overlap : Z) s md :
  0 ≤ overlap < chunk_size →
  Z.of_nat (length s) ≤ chunk_size →
  (Z.to_nat ((Z.of_nat (length s) + (chunk_size - overlap) - 1) /
             (chunk_size - overlap)) < fuel)%nat →
  chunk_text_chunks fuel chunk_size overlap s md =
    Some ((λ k : nat,
             {| text := drop (Z.to_nat (Z.of_nat k * (chunk_size - overlap))) s;
                start_idx := Z.of_nat k * (chunk_size - overlap);
                end_idx := Z.of_nat k * (chunk_size - overlap) + chunk_size;
                metadata := default ∅ md |}) <$>
          seq 0 (Z.to_nat ((Z.of_nat (length s) + (chunk_size - overlap) - 1) /
                           (chunk_size - overlap)))).
Proof.
  intros Hov Hlen Hfuel. unfold chunk_text_chunks.
  set (d := chunk_size - overlap) in *.
  set (len := Z.of_nat (length s)) in *.
  assert (0 < d) as Hd by (unfold d; lia).
  assert (0 ≤ len) as Hlen0 by (unfold len; lia).
  pose proof (Z.mul_div_le (len + d - 1) d Hd) as Hle.
  pose proof (Z.mul_succ_div_gt (len + d - 1) d Hd) as Hgt.
  assert (0 ≤ (len + d - 1) / d) as Hq by (apply Z.div_pos; lia).
  set (n := Z.to_nat ((len + d - 1) / d)) in *.
  assert (Z.of_nat n = (len + d - 1) / d) as Hn by (unfold n; lia).
  assert (len ≤ 0 + Z.of_nat n * d) as Hcover by nia.
  assert (∀ n' : nat, n = S n' → 0 + Z.of_nat n' * d < len) as Hlast
    by (intros n' Hn'; nia).
  rewrite (chunk_text_loop_short chunk_size overlap s md Hov Hlen
             n fuel 0 [] (Z.le_refl 0) Hfuel Hcover Hlast).
  reflexivity.
Qed.

Lemma short_text_chunks_witness :
  let s := String.list_ascii_of_string "abcdefgh" in
  chunk_text_chunks 3 8 3 s None =
    Some ((λ k : nat,
             {| text := drop (Z.to_nat (Z.of_nat k * (8 - 3))) s;
                start_idx := Z.of_nat k * (8 - 3);
                end_idx := Z.of_nat k * (8 - 3) + 8;
                metadata := default ∅ None |}) <$>
          seq 0 (Z.to_nat ((Z.of_nat (length s) + (8 - 3) - 1) / (8 - 3)))).
Proof.
  intros s.
  apply (short_text_chunks 3 8 3 s None).
  - lia.
  - vm_compute. discriminate.
  - vm_compute. lia.
Defined.

Lemma chunk_text_loop_no_space (chunk_size overlap : Z) s md :
  0 ≤ overlap < chunk_size →
  chunk_size < Z.of_nat (length s) →
  (∀ i : nat, Z.of_nat i < chunk_size → s !! i ≠ Some " "%char) →
  ∀ (fuel : nat) (start : Z) chunks,
    - overlap ≤ start ≤ 0 →
    chunk_text_loop fuel chunk_size overlap s md start chunks = None.
Proof.
  intros Hov Hlen Hs. induction fuel as [|fuel IH]; intros start chunks Hstart;
    simpl; [done|].
  rewrite (proj2 (Z.ltb_lt start (Z.of_nat (length s)))) by lia.
  assert (chunk_end chunk_size s start = 0) as ->.
  { unfold chunk_end.
    rewrite (proj2 (Z.ltb_lt (start + chunk_size) (Z.of_nat (length s)))) by lia.
    unfold rfind.
    rewrite (proj2 (Z.ltb_ge (Z.of_nat (length s)) (start + chunk_size))) by lia.
    rewrite (proj2 (Z.ltb_ge (start + chunk_size) 0)) by lia.
    set (lo := if start <? 0 then _ else _).
    assert (0 ≤ lo) as Hlo.
    { unfold lo. destruct (Z.ltb_spec start 0); lia. }
    rewrite rfind_down_none; [done|].
    intros i Hi. apply Hs. lia. }
  apply IH. lia.
Qed.

(** X24: with [0 <= overlap < chunk_size], on a text longer than
    [chunk_size] that has no space among its first [chunk_size] characters
    the loop never ends: [rfind] fails, the chunk end becomes 0, and the
    start goes back to [- overlap] at every turn, so no number of
    iterations yields a result. *)
Theorem chunking_without_space_never_ends
    (fuel : nat) (chunk_size overlap : Z) s md :
  0 ≤ overlap < chunk_size →
  chunk_size < Z.of_nat (length s) →
  (∀ i : nat, Z.of_nat i < chunk_size → s !! i ≠ Some " "%char) →
  chunk_text_chunks fuel chunk_size overlap s md = None.
Proof.
  intros Hov Hlen Hs. unfold chunk_text_chunks.
  apply chunk_text_loop_no_space; try done. lia.
Qed.

Lemma chunking_without_space_never_ends_witness :
  chunk_text_chunks 1000 5 0 (String.list_ascii_of_string "abcdefgh") None
    = None.
Proof.
  apply (chunking_without_space_never_ends 1000 5 0
           (String.list_ascii_of_string "abcdefgh") None).
  - lia.
  - vm_compute. reflexivity.
  - intros i Hi.
    destruct i as [|[|[|[|[|i]]]]]; simpl; try discriminate. lia.
Defined.

End Chunker.
